(** * Snowflake Cortex agent action: input normalisation, answer extraction
      and result persistence

    A shallow embedding of [src/snowflake-cortex-agent.ts].  JavaScript
    strings are sequences of UTF-16 code units, numbers are binary64 values
    ([SpecFloat.spec_float] with [prec = 53], [emax = 1024]), values of type
    [unknown] are JSON-like trees, and [throw] is the [Throw] branch of
    [result]. *)

From Stdlib Require Import ZArith NArith List Ascii String Bool Lia.
From Stdlib Require Import SpecFloat.
From stdpp Require Import gmap list.

(** ** Strings *)

(** A JavaScript string: its UTF-16 code units. *)
Abbreviation jstr := (list N).

(** An ASCII literal as a JavaScript string. *)
Definition str (s : string) : jstr := map N_of_ascii (list_ascii_of_string s).
Arguments str s%_string.

(** ECMAScript [WhiteSpace] and [LineTerminator] code points, the characters
    [String.prototype.trim] strips (all of them are in the basic plane). *)
Definition is_ws (c : N) : bool :=
  ((9 <=? c) && (c <=? 13) || (c =? 32) || (c =? 160) || (c =? 5760)
   || (8192 <=? c) && (c <=? 8202) || (c =? 8232) || (c =? 8233)
   || (c =? 8239) || (c =? 8287) || (c =? 12288) || (c =? 65279))%N.

Fixpoint trimStart (s : jstr) : jstr :=
  match s with
  | c :: rest => if is_ws c then trimStart rest else s
  | [] => []
  end.

Definition trimEnd (s : jstr) : jstr := rev (trimStart (rev s)).

(** [s.trim()] *)
Definition trim (s : jstr) : jstr := trimEnd (trimStart s).

(** A string is blank when it is empty or holds white space only. *)
Definition blank (s : jstr) : bool := forallb is_ws s.

(** Truthiness of a string: [s] is truthy unless it is empty. *)
Definition nonempty (s : jstr) : bool :=
  match s with [] => false | _ :: _ => true end.

Definition jstr_eqb (a b : jstr) : bool := bool_decide (a = b).

Definition newline : jstr := [10%N].

(** [parts.join(sep)] on an array of strings. *)
Fixpoint join (sep : jstr) (parts : list jstr) : jstr :=
  match parts with
  | [] => []
  | [p] => p
  | p :: rest => p ++ sep ++ join sep rest
  end.

(** ** Values *)

(** JavaScript numbers. *)
Abbreviation number := spec_float.

(** A value of type [unknown] as the program inspects it: [undefined], or a
    JSON-like tree.  An object is the list of its own properties in
    enumeration order. *)
#[warnings="-register-all"]
Inductive jsval : Type :=
| JUndefined
| JNull
| JBool (b : bool)
| JNum (x : number)
| JStr (s : jstr)
| JArr (items : list jsval)
| JObj (props : list (jstr * jsval)).

(** [ToBoolean] *)
Definition truthy (v : jsval) : bool :=
  match v with
  | JUndefined | JNull => false
  | JBool b => b
  | JNum (S754_zero _) | JNum S754_nan => false
  | JNum _ => true
  | JStr s => nonempty s
  | JArr _ | JObj _ => true
  end.

(** [record[key]] on the property list of an object: the first property of
    that name, [undefined] when there is none. *)
Fixpoint get (props : list (jstr * jsval)) (key : jstr) : jsval :=
  match props with
  | [] => JUndefined
  | (k, v) :: rest => if jstr_eqb k key then v else get rest key
  end.

(** [v.text], [v.content], ... for a property name that is neither an array
    index nor [length]: objects look the name up, every other JSON-like
    value answers [undefined]. *)
Definition get_prop (v : jsval) (key : jstr) : jsval :=
  match v with
  | JObj props => get props key
  | _ => JUndefined
  end.

Definition is_object (v : jsval) : bool :=   (* typeof v === 'object' *)
  match v with JNull | JArr _ | JObj _ => true | _ => false end.

Definition is_string (v : jsval) : bool :=   (* typeof v === 'string' *)
  match v with JStr _ => true | _ => false end.

(** ** Answer extraction *)

Module Extract.

(** The callback of [record.content.map]: the entry's [text] when the entry
    is an object with a string [text], [undefined] otherwise. *)
Definition entry_text (entry : jsval) : jsval :=
  if truthy entry && is_object entry && is_string (get_prop entry (str "text"))
  then get_prop entry (str "text")
  else JUndefined.

(** The predicate of [.filter]: a string of length above zero. *)
Definition keep_part (value : jsval) : option jstr :=
  match value with
  | JStr s => if (0 <? length s)%nat then Some s else None
  | _ => None
  end.

(** [record.content.map(...).filter(...)] *)
Definition textParts (content : list jsval) : list jstr :=
  omap keep_part (map entry_text content).

(** The [content] branch: the joined text parts when [record.content] is an
    array with at least one part, nothing otherwise. *)
Definition content_branch (record : list (jstr * jsval)) : option jstr :=
  match get record (str "content") with
  | JArr content =>
      let parts := textParts content in
      if (0 <? length parts)%nat then Some (join newline parts) else None
  | _ => None
  end.

(** The [text] branch: [record.text] when it is a string that is not blank. *)
Definition text_branch (record : list (jstr * jsval)) : option jstr :=
  match get record (str "text") with
  | JStr t => if (0 <? length (trim t))%nat then Some t else None
  | _ => None
  end.

(** [if (nested) return nested]: a result is passed on when it is truthy. *)
Definition pass (nested : option jstr) : option jstr :=
  match nested with
  | Some s => if nonempty s then Some s else None
  | None => None
  end.

(** Sequencing of the [if (...) return ...] statements: the first branch
    that returns decides. *)
Definition or_next {A} (first next : option A) : option A :=
  match first with
  | Some a => Some a
  | None => next
  end.

Fixpoint extractAnswerText (payload : jsval) : option jstr :=
  if negb (truthy payload) then None
  else
    match payload with
    | JStr s => if nonempty (trim s) then Some s else None
    | JArr items =>
        (fix loop (items : list jsval) : option jstr :=
           match items with
           | [] => None
           | item :: rest => or_next (pass (extractAnswerText item)) (loop rest)
           end) items
    | JObj record =>
        (* [if (record[key]) { nested = extractAnswerText(record[key]); ... }] *)
        let nestedIn :=
          fix nestedIn (key : jstr) (props : list (jstr * jsval)) : option jstr :=
            match props with
            | [] => None
            | (k, v) :: rest =>
                if jstr_eqb k key
                then (if truthy v then pass (extractAnswerText v) else None)
                else nestedIn key rest
            end in
        or_next (content_branch record)
          (or_next (text_branch record)
             (or_next (nestedIn (str "response") record)
                (nestedIn (str "data") record)))
    | _ => None
    end.

(** The loop over an array payload. *)
Fixpoint first_answer (items : list jsval) : option jstr :=
  match items with
  | [] => None
  | item :: rest => or_next (pass (extractAnswerText item)) (first_answer rest)
  end.

(** The recursion into [record.response] and [record.data]. *)
Definition nested_branch (record : list (jstr * jsval)) (key : jstr) : option jstr :=
  let v := get record key in
  if truthy v then pass (extractAnswerText v) else None.

End Extract.


(** ** Numbers *)

Module Num.

Definition prec : Z := 53.
Definition emax : Z := 1024.

Definition NaN : number := S754_nan.

(** [Number.isFinite(x)] *)
Definition is_finite (x : number) : bool :=
  match x with S754_zero _ | S754_finite _ _ _ => true | _ => false end.

(** [Number.isNaN(x)] *)
Definition isNaN (x : number) : bool :=
  match x with S754_nan => true | _ => false end.

(** The Number value for [m * 10^e10] with [0 <= m], negated when [neg]:
    the nearest binary64 value, ties to even.  The two early exits only
    spare the computation of a huge power of ten: at [0 <= e10],
    [2^(log2 m + 3 * e10) <= m * 10^e10], which from [2^1025] on rounds to
    an infinity; at [e10 < 0], [m * 10^e10 < 2^(log2 m + 1 + 3 * e10)],
    which up to [2^-1076] rounds to zero. *)
Definition of_decimal (neg : bool) (m e10 : Z) : number :=
  if (m <=? 0)%Z then S754_zero neg
  else if (0 <=? e10)%Z then
    if (1025 <=? Z.log2 m + 3 * e10)%Z then S754_infinity neg
    else binary_normalize prec emax (cond_Zopp neg (m * 10 ^ e10)) 0 neg
  else
    if (Z.log2 m + 1 + 3 * e10 <=? -1076)%Z then S754_zero neg
    else
      let '(q, e, l) := SFdiv_core_binary prec emax m 0 (10 ^ (- e10)) 0 in
      binary_round_aux prec emax neg q e l.

(** *** [Number(string)]: the StringNumericLiteral grammar *)

Definition is_digit (c : N) : bool := ((48 <=? c) && (c <=? 57))%N.

(** The value of a digit in a radix up to 16, when it is one. *)
Definition digit_in (radix : N) (c : N) : option Z :=
  let v := (if (48 <=? c) && (c <=? 57) then Some (c - 48)
            else if (97 <=? c) && (c <=? 102) then Some (c - 87)
            else if (65 <=? c) && (c <=? 70) then Some (c - 55)
            else None)%N in
  match v with
  | Some d => if (d <? radix)%N then Some (Z.of_N d) else None
  | None => None
  end.

(** The longest prefix of decimal digits, and what follows it. *)
Fixpoint span_digits (s : jstr) : jstr * jstr :=
  match s with
  | c :: rest =>
      if is_digit c then let '(ds, r) := span_digits rest in (c :: ds, r)
      else ([], s)
  | [] => ([], [])
  end.

Definition digits_value (ds : jstr) : Z :=
  fold_left (λ acc c, 10 * acc + (Z.of_N c - 48))%Z ds 0%Z.

(** A string of digits of the radix only: its value. *)
Fixpoint radix_value (radix : N) (acc : Z) (s : jstr) : option Z :=
  match s with
  | [] => Some acc
  | c :: rest =>
      match digit_in radix c with
      | Some d => radix_value radix (Z.of_N radix * acc + d)%Z rest
      | None => None
      end
  end.

(** [0x..], [0o..], [0b..] after the prefix: at least one digit. *)
Definition non_decimal (radix : N) (s : jstr) : number :=
  match s, radix_value radix 0 s with
  | _ :: _, Some v => of_decimal false v 0
  | _, _ => NaN
  end.

(** An optional sign off the front of [s], a minus or, where [plus] allows
    it, a plus: is it a minus, and what follows. *)
Definition sign_prefix (plus : bool) (s : jstr) : bool * jstr :=
  match s with
  | c :: r =>
      if (c =? 45)%N then (true, r)
      else if plus && (c =? 43)%N then (false, r)
      else (false, s)
  | [] => (false, s)
  end.

(** ExponentPart, optional, up to the end of the string. *)
Definition parse_exponent (s : jstr) : option Z :=
  match s with
  | [] => Some 0%Z
  | c :: r =>
      if ((c =? 101) || (c =? 69))%N then
        let '(neg, r') := sign_prefix true r in
        match span_digits r' with
        | ((_ :: _) as ds, []) => Some (cond_Zopp neg (digits_value ds))
        | _ => None
        end
      else None
  end.

(** StrUnsignedDecimalLiteral *)
Definition unsigned_decimal (neg : bool) (s : jstr) : number :=
  if jstr_eqb s (str "Infinity") then S754_infinity neg
  else
    let '(ip, r1) := span_digits s in
    let '(fp, r2) :=
      match r1 with
      | 46%N :: r => span_digits r
      | _ => ([], r1)
      end in
    if nonempty ip || nonempty fp then
      match parse_exponent r2 with
      | Some e => of_decimal neg (digits_value (ip ++ fp)) (e - Z.of_nat (length fp))
      | None => NaN
      end
    else NaN.

(** [Number(s)] for a string [s]: white space around the literal goes, and
    the empty string is zero. *)
Definition Number (s : jstr) : number :=
  match trim s with
  | [] => S754_zero false
  | 43%N :: r => unsigned_decimal false r
  | 45%N :: r => unsigned_decimal true r
  | (48%N :: c :: r) as t =>
      if ((c =? 120) || (c =? 88))%N then non_decimal 16 r
      else if ((c =? 111) || (c =? 79))%N then non_decimal 8 r
      else if ((c =? 98) || (c =? 66))%N then non_decimal 2 r
      else unsigned_decimal false t
  | t => unsigned_decimal false t
  end.

(** *** [Math.floor] *)

(** The binary64 value of an integer [0 < n < 2^53], negated when [neg]:
    the mantissa is [n] shifted up to 53 bits ([n] itself if it has more). *)
Definition of_int53 (neg : bool) (n : Z) : number :=
  let shift := Z.max 0 (prec - Z.log2 n - 1) in
  match Z.shiftl n shift with
  | Zpos m => S754_finite neg m (- shift)
  | _ => S754_zero neg
  end.

Definition Math_floor (x : number) : number :=
  match x with
  | S754_finite neg m e =>
      if (0 <=? e)%Z then x
      else
        let q := Z.shiftr (Zpos m) (- e) in
        let exact := (Z.shiftl q (- e) =? Zpos m)%Z in
        let n := if neg && negb exact then (q + 1)%Z else q in
        of_int53 neg n
  | _ => x
  end.

(** *** [Number::toString] *)

(** [10^j <= num / den], for positive [num] and [den]. *)
Definition pow10_le (j num den : Z) : bool :=
  if (0 <=? j)%Z then (10 ^ j * den <=? num)%Z else (den <=? num * 10 ^ (- j))%Z.

Fixpoint exp10_down (fuel : nat) (n num den : Z) : Z :=
  match fuel with
  | O => n
  | S fuel' => if pow10_le (n - 1) num den then n else exp10_down fuel' (n - 1) num den
  end.

Fixpoint exp10_up (fuel : nat) (n num den : Z) : Z :=
  match fuel with
  | O => n
  | S fuel' => if pow10_le n num den then exp10_up fuel' (n + 1) num den else n
  end.

(** The [n] with [10^(n-1) <= num / den < 10^n]: a search from the estimate
    that the binary logarithms give, which is off by two at most. *)
Definition exp10 (num den : Z) : Z :=
  let est := ((Z.log2 num - Z.log2 den) * 1233 / 4096)%Z in
  exp10_up 8 (exp10_down 8 est num den) num den.

(** The decimal digits of a natural number, most significant first. *)
Fixpoint digits_fuel (fuel : nat) (n : Z) (acc : jstr) : jstr :=
  match fuel with
  | O => acc
  | S fuel' =>
      let acc' := (48 + Z.to_N (n mod 10))%N :: acc in
      if (n <? 10)%Z then acc' else digits_fuel fuel' (n / 10)%Z acc'
  end.

Definition decimal (n : Z) : jstr := digits_fuel (S (Z.to_nat (Z.log2 n))) n [].

(** [String(n)] for an integer-valued Number below [10^21] in magnitude. *)
Definition String_int (n : Z) : jstr :=
  if (n <? 0)%Z then 45%N :: decimal (- n) else decimal n.

(** The candidates with [k] digits for the finite [x = num / den] of decimal
    exponent [n]: the two multiples of [10^(n-k)] around it, the nearer one
    first (the even one at a tie). *)
Definition candidates (k n num den : Z) : list Z :=
  let q := (n - k)%Z in
  let '(a, b) := if (0 <=? q)%Z then (num, den * 10 ^ q)%Z else (num * 10 ^ (- q), den)%Z in
  let lo := (a / b)%Z in
  let r := (a mod b)%Z in
  match (2 * r ?= b)%Z with
  | Lt => [lo; lo + 1]
  | Gt => [lo + 1; lo]
  | Eq => if Z.even lo then [lo; lo + 1] else [lo + 1; lo]
  end%Z.

Definition number_eqb (x y : number) : bool :=
  match x, y with
  | S754_finite s m e, S754_finite s' m' e' => Bool.eqb s s' && (m =? m')%positive && (e =? e')%Z
  | _, _ => false
  end.

(** The shortest digit string that reads back as [x]: integers [s], [k], [n]
    with [k >= 1], [10^(k-1) <= s < 10^k], [s * 10^(n-k)] rounding to [x]
    and [k] least. *)
Fixpoint shortest (fuel : nat) (k n num den : Z) (x : number) : Z * Z * Z :=
  let ok s := number_eqb (of_decimal false s (n - k)) x in
  match filter (λ s, ok s = true) (candidates k n num den) with
  | s :: _ =>
      if (s =? 10 ^ k)%Z then (1, 1, n + 1)%Z else (s, k, n)
  | [] =>
      match fuel with
      | O => ((num * 10 ^ (k - n)) / den, k, n)%Z
      | S fuel' => shortest fuel' (k + 1) n num den x
      end
  end.

Definition zeros (n : Z) : jstr := repeat 48%N (Z.to_nat n).

Definition exponent_suffix (n : Z) : jstr :=
  101%N :: (if (0 <=? n - 1)%Z then 43%N else 45%N) :: decimal (Z.abs (n - 1)).

(** The layout of [Number::toString] for digits [s] (there are [k]) and
    decimal exponent [n]. *)
Definition layout (s k n : Z) : jstr :=
  let ds := decimal s in
  if (k <=? n)%Z && (n <=? 21)%Z then ds ++ zeros (n - k)
  else if (0 <? n)%Z && (n <=? 21)%Z then
    take (Z.to_nat n) ds ++ 46%N :: drop (Z.to_nat n) ds
  else if (-6 <? n)%Z && (n <=? 0)%Z then
    48%N :: 46%N :: zeros (- n) ++ ds
  else if (k =? 1)%Z then ds ++ exponent_suffix n
  else take 1 ds ++ 46%N :: drop 1 ds ++ exponent_suffix n.

(** [String(x)], [x.toString()] *)
Definition toString (x : number) : jstr :=
  match x with
  | S754_nan => str "NaN"
  | S754_zero _ => str "0"
  | S754_infinity neg => (if neg then [45%N] else []) ++ str "Infinity"
  | S754_finite neg m e =>
      let num := (if (0 <=? e)%Z then Z.shiftl (Zpos m) e else Zpos m)%Z in
      let den := (if (0 <=? e)%Z then 1 else Z.shiftl 1 (- e))%Z in
      let '(s, k, n) := shortest 17 1 (exp10 num den) num den (S754_finite false m e) in
      (if neg then [45%N] else []) ++ layout s k n
  end.

(** *** What a number stands for *)

(** The integer that [x] is, when it is one. *)
Definition int_value (x : number) : option Z :=
  match x with
  | S754_zero _ => Some 0%Z
  | S754_finite neg m e =>
      if (0 <=? e)%Z then Some (cond_Zopp neg (Zpos m) * 2 ^ e)%Z
      else if (Zpos m mod 2 ^ (- e) =? 0)%Z then Some (cond_Zopp neg (Zpos m) / 2 ^ (- e))%Z
      else None
  | _ => None
  end.

(** The greatest integer not above the finite [x = (-1)^neg * m * 2^e]
    ([Z.div] rounds down). *)
Definition floorZ (x : number) : option Z :=
  match x with
  | S754_zero _ => Some 0%Z
  | S754_finite neg m e =>
      if (0 <=? e)%Z then Some (cond_Zopp neg (Zpos m) * 2 ^ e)%Z
      else Some (cond_Zopp neg (Zpos m) / 2 ^ (- e))%Z
  | _ => None
  end.

(** [Number.isInteger(x)] *)
Definition isInteger (x : number) : bool :=
  match int_value x with Some _ => true | None => false end.

Definition all_digits (s : jstr) : bool := forallb is_digit s.

End Num.

(** ** Exceptions *)

Inductive exn : Type :=
| Error (message : jstr)         (* [new Error(message)] *)
| SyntaxError (message : jstr)   (* thrown by [JSON.parse] *)
| SystemError (code : jstr).     (* thrown by [fs] *)

(** [err.message] *)
Definition message (e : exn) : jstr :=
  match e with
  | Error m | SyntaxError m | SystemError m => m
  end.

(** A computation that returns or throws. *)
Inductive result (A : Type) : Type :=
| Ok (a : A)
| Throw (e : exn).
Arguments Ok {A} a.
Arguments Throw {A} e.

Definition bind {A B} (r : result A) (k : A → result B) : result B :=
  match r with
  | Ok a => k a
  | Throw e => Throw e
  end.

Notation "'let*' x := r 'in' k" := (bind r (λ x, k))
  (at level 10, x pattern, r at level 100, k at level 200).

(** ** JSON *)

Module JSON.

(** *** [JSON.parse] *)

(** The outcome of reading one value off the front of a text. *)
Inductive parsed : Type :=
| Parsed (v : jsval) (rest : jstr)
| Unexpected (message : jstr)
| OutOfFuel.

Definition is_json_ws (c : N) : bool :=
  ((c =? 9) || (c =? 10) || (c =? 13) || (c =? 32))%N.

Fixpoint skip_ws (s : jstr) : jstr :=
  match s with
  | c :: rest => if is_json_ws c then skip_ws rest else s
  | [] => []
  end.

Definition unexpected_token : jstr := str "Unexpected token in JSON".
Definition unexpected_end : jstr := str "Unexpected end of JSON input".

(** The character that a one-letter escape stands for. *)
Definition simple_escape (esc : N) : option N :=
  (if esc =? 34 then Some 34
   else if esc =? 92 then Some 92
   else if esc =? 47 then Some 47
   else if esc =? 98 then Some 8
   else if esc =? 102 then Some 12
   else if esc =? 110 then Some 10
   else if esc =? 114 then Some 13
   else if esc =? 116 then Some 9
   else None)%N.

(** The code unit of four hexadecimal digits. *)
Definition hex4 (h1 h2 h3 h4 : N) : option N :=
  match Num.digit_in 16 h1, Num.digit_in 16 h2, Num.digit_in 16 h3, Num.digit_in 16 h4 with
  | Some d1, Some d2, Some d3, Some d4 =>
      Some (Z.to_N (((d1 * 16 + d2) * 16 + d3) * 16 + d4))
  | _, _, _, _ => None
  end.

(** The body of a string literal after its opening quote: the string, and
    what follows the closing quote. *)
Fixpoint string_body (s : jstr) (acc : jstr) : option (jstr * jstr) :=
  match s with
  | [] => None
  | c :: rest =>
      if (c =? 34)%N then Some (rev acc, rest)
      else if (c =? 92)%N then
        match rest with
        | [] => None
        | esc :: rest' =>
            match simple_escape esc with
            | Some c' => string_body rest' (c' :: acc)
            | None =>
                if (esc =? 117)%N then
                  match rest' with
                  | h1 :: h2 :: h3 :: h4 :: rest'' =>
                      match hex4 h1 h2 h3 h4 with
                      | Some u => string_body rest'' (u :: acc)
                      | None => None
                      end
                  | _ => None
                  end
                else None
            end
        end
      else if (c <? 32)%N then None
      else string_body rest (c :: acc)
  end.

(** An optional fraction: a point and at least one digit. *)
Definition fraction (s : jstr) : option (jstr * jstr) :=
  match s with
  | c :: r =>
      if (c =? 46)%N then
        match Num.span_digits r with
        | ((_ :: _) as fp, r2) => Some (fp, r2)
        | _ => None
        end
      else Some ([], s)
  | [] => Some ([], s)
  end.

(** An optional exponent: [e] or [E], an optional sign, at least one
    digit. *)
Definition exponent (s : jstr) : option (Z * jstr) :=
  match s with
  | c :: r =>
      if ((c =? 101) || (c =? 69))%N then
        let '(eneg, r') := Num.sign_prefix true r in
        match Num.span_digits r' with
        | ((_ :: _) as ds, r3) => Some (cond_Zopp eneg (Num.digits_value ds), r3)
        | _ => None
        end
      else Some (0%Z, s)
  | [] => Some (0%Z, s)
  end.

(** An integer part may not begin with a zero that other digits follow. *)
Definition leading_zero (ip : jstr) : bool :=
  match ip with
  | d :: _ :: _ => (d =? 48)%N
  | _ => false
  end.

(** A number literal off the front of [s]: its value, and what follows. *)
Definition number_literal (s : jstr) : option (number * jstr) :=
  let '(neg, s1) := Num.sign_prefix false s in
  let '(ip, r1) := Num.span_digits s1 in
  if negb (nonempty ip) || leading_zero ip then None
  else
    match fraction r1 with
    | Some (fp, r2) =>
        match exponent r2 with
        | Some (e, r3) =>
            Some (Num.of_decimal neg (Num.digits_value (ip ++ fp)) (e - Z.of_nat (length fp)), r3)
        | None => None
        end
    | None => None
    end.

(** [key] is an array index: the canonical decimal form of an integer from
    0 to 2^32 - 2. *)
Definition array_index (key : jstr) : option Z :=
  match key with
  | [] => None
  | [48%N] => Some 0%Z
  | 48%N :: _ => None
  | _ =>
      if forallb Num.is_digit key && (length key <=? 10)%nat && (Num.digits_value key <=? 4294967294)%Z
      then Some (Num.digits_value key)
      else None
  end.

(** In the order of an object's own property keys, a new key [key] comes
    before the present key [k]: array indices ascend and precede the other
    keys, which stay in creation order. *)
Definition before (key k : jstr) : bool :=
  match array_index key, array_index k with
  | Some i, Some j => (i <? j)%Z
  | Some _, None => true
  | None, _ => false
  end.

(** [CreateDataProperty(obj, key, v)] on an ordinary object. *)
Fixpoint obj_set (props : list (jstr * jsval)) (key : jstr) (v : jsval)
  : list (jstr * jsval) :=
  match props with
  | [] => [(key, v)]
  | (k, x) :: rest =>
      if jstr_eqb k key then (k, v) :: rest
      else if before key k then (key, v) :: props
      else (k, x) :: obj_set rest key v
  end.

Fixpoint starts_with (lit s : jstr) : option jstr :=
  match lit, s with
  | [], _ => Some s
  | a :: lit', b :: s' => if (a =? b)%N then starts_with lit' s' else None
  | _ :: _, [] => None
  end.

(** What follows a value in an array or an object: a comma, or the
    closing character. *)
Inductive follow : Type :=
| Comma (rest : jstr)
| Close (rest : jstr)
| Neither (message : jstr).

Definition after_value (close : N) (s : jstr) : follow :=
  match skip_ws s with
  | c :: rest =>
      if (c =? 44)%N then Comma rest
      else if (c =? close)%N then Close rest
      else Neither unexpected_token
  | [] => Neither unexpected_end
  end.

(** The elements of an array after the first [[]: values separated by
    commas up to the closing bracket. *)
Fixpoint elements (value : jstr → parsed) (fuel : nat) (s : jstr) (acc : list jsval)
  : parsed :=
  match fuel with
  | O => OutOfFuel
  | S fuel' =>
      match value s with
      | Parsed v r =>
          match after_value 93 r with
          | Comma r' => elements value fuel' r' (v :: acc)
          | Close r' => Parsed (JArr (rev (v :: acc))) r'
          | Neither msg => Unexpected msg
          end
      | other => other
      end
  end.

(** A member name and its colon. *)
Definition member_name (s : jstr) : option (jstr * jstr) :=
  match skip_ws s with
  | c :: r =>
      if (c =? 34)%N then
        match string_body r [] with
        | Some (key, r1) =>
            match skip_ws r1 with
            | c' :: r2 => if (c' =? 58)%N then Some (key, r2) else None
            | [] => None
            end
        | None => None
        end
      else None
  | [] => None
  end.

(** The members of an object after the first [{]. *)
Fixpoint members (value : jstr → parsed) (fuel : nat) (s : jstr)
  (acc : list (jstr * jsval)) : parsed :=
  match fuel with
  | O => OutOfFuel
  | S fuel' =>
      match member_name s with
      | Some (key, r) =>
          match value r with
          | Parsed v r' =>
              match after_value 125 r' with
              | Comma r'' => members value fuel' r'' (obj_set acc key v)
              | Close r'' => Parsed (JObj (obj_set acc key v)) r''
              | Neither msg => Unexpected msg
              end
          | other => other
          end
      | None => Unexpected unexpected_token
      end
  end.

(** [true], [false], [null] or a number off the front of [s]. *)
Definition literal (s : jstr) : parsed :=
  match starts_with (str "true") s, starts_with (str "false") s,
        starts_with (str "null") s with
  | Some r, _, _ => Parsed (JBool true) r
  | _, Some r, _ => Parsed (JBool false) r
  | _, _, Some r => Parsed JNull r
  | None, None, None =>
      match number_literal s with
      | Some (x, r) => Parsed (JNum x) r
      | None => Unexpected unexpected_token
      end
  end.

(** An array or an object is empty when its closing character follows
    at once. *)
Definition closes_at_once (close : N) (s : jstr) : option jstr :=
  match skip_ws s with
  | c :: r => if (c =? close)%N then Some r else None
  | [] => None
  end.

(** One JSON value off the front of [s], after white space. *)
Fixpoint value (fuel : nat) (s : jstr) : parsed :=
  match fuel with
  | O => OutOfFuel
  | S fuel' =>
      match skip_ws s with
      | [] => Unexpected unexpected_end
      | (c :: rest) as t =>
          if (c =? 34)%N then
            match string_body rest [] with
            | Some (text, r) => Parsed (JStr text) r
            | None => Unexpected unexpected_token
            end
          else if (c =? 91)%N then
            match closes_at_once 93 rest with
            | Some r => Parsed (JArr []) r
            | None => elements (value fuel') fuel' rest []
            end
          else if (c =? 123)%N then
            match closes_at_once 125 rest with
            | Some r => Parsed (JObj []) r
            | None => members (value fuel') fuel' rest []
            end
          else literal t
      end
  end.

(** A reader of values consumes what it reads. *)
Definition consumes (value : jstr → parsed) : Prop :=
  ∀ s v r, value s = Parsed v r → (length r < length s)%nat.

(** [JSON.parse(text)]: one value, white space around it.  The fuel is the
    length of the text and one more, which is never used up, so that the last
    case does not arise.  Of the wording of the engine's [SyntaxError]
    messages only these two are modelled. *)
Definition parse (text : jstr) : result jsval :=
  match value (S (length text)) text with
  | Parsed v rest =>
      match skip_ws rest with
      | [] => Ok v
      | _ => Throw (SyntaxError unexpected_token)
      end
  | Unexpected msg => Throw (SyntaxError msg)
  | OutOfFuel => Throw (SyntaxError unexpected_end)
  end.

(** *** [JSON.stringify] *)

Definition hex_digit (d : N) : N := (if d <? 10 then 48 + d else 87 + d)%N.

(** [\uXXXX] *)
Definition unicode_escape (c : N) : jstr :=
  [92; 117; hex_digit (c / 4096 mod 16); hex_digit (c / 256 mod 16);
   hex_digit (c / 16 mod 16); hex_digit (c mod 16)]%N.

Definition is_high_surrogate (c : N) : bool := ((55296 <=? c) && (c <=? 56319))%N.
Definition is_low_surrogate (c : N) : bool := ((56320 <=? c) && (c <=? 57343))%N.

Definition quote_unit (c : N) : jstr :=
  (if c =? 8 then str "\b"
   else if c =? 9 then str "\t"
   else if c =? 10 then str "\n"
   else if c =? 12 then str "\f"
   else if c =? 13 then str "\r"
   else if c =? 34 then [92; 34]
   else if c =? 92 then [92; 92]
   else if (c <? 32) || is_high_surrogate c || is_low_surrogate c then unicode_escape c
   else [c])%N.

Fixpoint quote_body (s : jstr) : jstr :=
  match s with
  | [] => []
  | c :: rest =>
      match rest with
      | d :: rest' =>
          if is_high_surrogate c && is_low_surrogate d then c :: d :: quote_body rest'
          else quote_unit c ++ quote_body rest
      | [] => quote_unit c
      end
  end.

(** [QuoteJSONString] *)
Definition quote (s : jstr) : jstr := 34%N :: quote_body s ++ [34%N].

(** [SerializeJSONProperty] with the gap [gap] at the indentation [indent];
    [None] is [undefined]. *)
Fixpoint serialize (gap indent : jstr) (v : jsval) : option jstr :=
  let inner := indent ++ gap in
  let separator := if nonempty gap then 44%N :: newline ++ inner else [44%N] in
  let wrap (open close : N) (parts : list jstr) : jstr :=
    match parts with
    | [] => [open; close]
    | _ =>
        if nonempty gap
        then open :: newline ++ inner ++ join separator parts ++ newline ++ indent ++ [close]
        else open :: join separator parts ++ [close]
    end in
  match v with
  | JUndefined => None
  | JNull => Some (str "null")
  | JBool b => Some (if b then str "true" else str "false")
  | JNum x => Some (if Num.is_finite x then Num.toString x else str "null")
  | JStr s => Some (quote s)
  | JArr items =>
      Some (wrap 91%N 93%N
              (map (λ item, default (str "null") (serialize gap inner item)) items))
  | JObj props =>
      Some (wrap 123%N 125%N
              ((fix members (props : list (jstr * jsval)) : list jstr :=
                  match props with
                  | [] => []
                  | (k, x) :: rest =>
                      match serialize gap inner x with
                      | Some text =>
                          (quote k ++ 58%N :: (if nonempty gap then [32%N] else []) ++ text)
                            :: members rest
                      | None => members rest
                      end
                  end) props))
  end.

(** [JSON.stringify(v, null, 2)] *)
Definition stringify2 (v : jsval) : option jstr := serialize (str "  ") [] v.

(** [JSON.stringify(v)] *)
Definition stringify (v : jsval) : option jstr := serialize [] [] v.

End JSON.

(** ** Input normalisation *)

(** What the run is given: the action's inputs and the process environment,
    both maps from names to strings. *)
Record config : Type := {
  inputs : gmap jstr jstr;
  env : gmap jstr jstr
}.

(** [core.getInput(name)]: the input's value with white space trimmed, the
    empty string when the input is not supplied. *)
Definition getInput (cfg : config) (name : jstr) : jstr :=
  trim (default [] (inputs cfg !! name)).

(** [process.env.NAME]: a string, or [undefined]. *)
Definition getenv (cfg : config) (name : jstr) : option jstr := env cfg !! name.

(** [a || b] on values that are a string or [undefined]: [a] when it is a
    string that is not empty, else [b]. *)
Definition oror (a b : option jstr) : option jstr :=
  match a with
  | Some (_ :: _) => a
  | _ => b
  end.

(** [a || ''] *)
Definition or_empty (a : option jstr) : jstr :=
  match a with
  | Some s => s
  | None => []
  end.

Record coordinates : Type := {
  database : jstr;
  schema : jstr;
  agentName : jstr
}.

Definition missing_database : jstr :=
  str "Provide `agent-database` or set AGENT_DATABASE/SNOWFLAKE_DATABASE.".
Definition missing_schema : jstr :=
  str "Provide `agent-schema` or set AGENT_SCHEMA/SNOWFLAKE_SCHEMA.".
Definition missing_agentName : jstr :=
  str "Provide `agent-name` or set AGENT_NAME.".

Definition resolve_database (cfg : config) : jstr :=
  trim (or_empty (oror (oror (Some (getInput cfg (str "agent-database")))
                             (getenv cfg (str "AGENT_DATABASE")))
                       (getenv cfg (str "SNOWFLAKE_DATABASE")))).

Definition resolve_schema (cfg : config) : jstr :=
  trim (or_empty (oror (oror (Some (getInput cfg (str "agent-schema")))
                             (getenv cfg (str "AGENT_SCHEMA")))
                       (getenv cfg (str "SNOWFLAKE_SCHEMA")))).

Definition resolve_agentName (cfg : config) : jstr :=
  trim (or_empty (oror (Some (getInput cfg (str "agent-name")))
                       (getenv cfg (str "AGENT_NAME")))).

Definition resolveAgentCoordinates (cfg : config) : result coordinates :=
  let database := resolve_database cfg in
  let schema := resolve_schema cfg in
  let agentName := resolve_agentName cfg in
  if negb (nonempty database) then Throw (Error missing_database)
  else if negb (nonempty schema) then Throw (Error missing_schema)
  else if negb (nonempty agentName) then Throw (Error missing_agentName)
  else Ok {| database := database; schema := schema; agentName := agentName |}.

(** [[{ role: 'user', content: [{ type: 'text', text: single }] }]] *)
Definition single_message (single : jstr) : list jsval :=
  [JObj [(str "role", JStr (str "user"));
         (str "content",
          JArr [JObj [(str "type", JStr (str "text")); (str "text", JStr single)]])]].

(** The [try] block of [parseMessages]. *)
Definition parse_array (rawMessages : jstr) : result (list jsval) :=
  let* parsed := JSON.parse rawMessages in
  match parsed with
  | JArr items => Ok items
  | _ => Throw (Error (str "messages must be a JSON array."))
  end.

(** The rest of [parseMessages], after the [if]: the single message. *)
Definition fallback_message (fallbackMessage : option jstr) : result (list jsval) :=
  let single := trim (or_empty fallbackMessage) in
  if negb (nonempty single)
  then Throw (Error (str "Provide `message` input, AGENT_MESSAGE env, or a messages array."))
  else Ok (single_message single).

Definition parseMessages (rawMessages fallbackMessage : option jstr)
  : result (list jsval) :=
  match rawMessages with
  | Some raw =>
      if nonempty raw && (0 <? length (trim raw))%nat then
        match parse_array raw with
        | Ok messages => Ok messages
        | Throw err => Throw (Error (str "Invalid messages JSON: " ++ message err))
        end
      else fallback_message fallbackMessage
  | None => fallback_message fallbackMessage
  end.

Definition parseOptionalInteger (raw : option jstr) : result (option number) :=
  match raw with
  | Some raw =>
      if negb (nonempty raw) then Ok None
      else
        let trimmed := trim raw in
        if negb (nonempty trimmed) then Ok None
        else
          let num := Num.Number trimmed in
          if Num.isNaN num
          then Throw (Error (str "Expected integer value, received: " ++ raw))
          else Ok (Some (Num.Math_floor num))
  | None => Ok None
  end.

(** The [try] block of [parseToolChoice]. *)
Definition parse_object (trimmed : jstr) : result jsval :=
  let* parsed := JSON.parse trimmed in
  if negb (truthy parsed) || negb (is_object parsed)
  then Throw (Error (str "tool-choice must be a JSON object."))
  else Ok parsed.

(** [undefined] is [JUndefined]. *)
Definition parseToolChoice (raw : option jstr) : result jsval :=
  match raw with
  | Some raw =>
      if negb (nonempty raw) then Ok JUndefined
      else
        let trimmed := trim raw in
        if negb (nonempty trimmed) then Ok JUndefined
        else
          match trimmed with
          | 123%N :: _ =>
              match parse_object trimmed with
              | Ok parsed => Ok parsed
              | Throw err => Throw (Error (str "Invalid tool-choice JSON: " ++ message err))
              end
          | _ => Ok (JObj [(str "type", JStr trimmed)])
          end
  | None => Ok JUndefined
  end.

(** [core.getInput('messages') || process.env.AGENT_MESSAGES] *)
Definition raw_messages (cfg : config) : option jstr :=
  oror (Some (getInput cfg (str "messages"))) (getenv cfg (str "AGENT_MESSAGES")).

(** [core.getInput('message') || process.env.AGENT_MESSAGE] *)
Definition raw_message (cfg : config) : option jstr :=
  oror (Some (getInput cfg (str "message"))) (getenv cfg (str "AGENT_MESSAGE")).

(** The argument of [runCortexAgent]. *)
Record request : Type := {
  coords : coordinates;
  messages : list jsval;
  threadId : option number;
  parentMessageId : option number;
  toolChoice : jsval
}.

(** [main] up to the call of [runCortexAgent]: the request it passes, or
    the error that ends the run.  [parseBoolean] and the choice of the
    persist directory, which come in between, neither throw nor enter the
    request. *)
Definition main_request (cfg : config) : result request :=
  let* coords := resolveAgentCoordinates cfg in
  let* messages := parseMessages (raw_messages cfg) (raw_message cfg) in
  let* threadId :=
    parseOptionalInteger
      (oror (Some (getInput cfg (str "thread-id"))) (getenv cfg (str "AGENT_THREAD_ID"))) in
  let* parentMessageId :=
    parseOptionalInteger
      (oror (Some (getInput cfg (str "parent-message-id")))
            (getenv cfg (str "AGENT_PARENT_MESSAGE_ID"))) in
  let* toolChoice :=
    parseToolChoice
      (oror (Some (getInput cfg (str "tool-choice"))) (getenv cfg (str "AGENT_TOOL_CHOICE"))) in
  Ok {| coords := coords; messages := messages; threadId := threadId;
        parentMessageId := parentMessageId; toolChoice := toolChoice |}.

(** ** Result persistence *)

(** *** The file system *)

Inductive kind : Type := RegularFile | Directory | OtherEntry.

(** An entry of the target directory: what [statSync] reports of it, what
    it holds, and whether [statSync] or [unlinkSync] fail on it (an entry
    that went away or may not be touched). *)
Record entry : Type := {
  entry_kind : kind;
  mtimeMs : Z;
  contents : jstr;
  stat_fails : bool;
  unlink_fails : bool
}.

(** The state of the directory that [path.resolve(dir)] names: its entries
    by name, [None] while it does not exist; and whether creating it,
    listing it or writing into it fails.  Times are whole milliseconds. *)
Record filesystem : Type := {
  target : option (gmap jstr entry);
  mkdir_fails : bool;
  readdir_fails : bool;
  write_fails : bool
}.

Definition with_target (fs : filesystem) (d : option (gmap jstr entry)) : filesystem :=
  {| target := d; mkdir_fails := mkdir_fails fs;
     readdir_fails := readdir_fails fs; write_fails := write_fails fs |}.

Definition EACCES : exn := SystemError (str "EACCES: permission denied").
Definition ENOENT : exn := SystemError (str "ENOENT: no such file or directory").
Definition EISDIR : exn := SystemError (str "EISDIR: illegal operation on a directory").

(** [fs.mkdirSync(dir, { recursive: true })] *)
Definition mkdirSync (fs : filesystem) : result filesystem :=
  if mkdir_fails fs then Throw EACCES
  else
    match target fs with
    | Some _ => Ok fs
    | None => Ok (with_target fs (Some ∅))
    end.

(** [fs.existsSync(dir)] *)
Definition existsSync (fs : filesystem) : bool :=
  match target fs with Some _ => true | None => false end.

(** [fs.readdirSync(dir)] *)
Definition readdirSync (fs : filesystem) : result (list jstr) :=
  match target fs with
  | Some d => if readdir_fails fs then Throw EACCES else Ok (map fst (map_to_list d))
  | None => Throw ENOENT
  end.

(** [fs.statSync(path.join(dir, name))] *)
Definition statSync (fs : filesystem) (name : jstr) : result entry :=
  match target fs with
  | Some d =>
      match d !! name with
      | Some e => if stat_fails e then Throw EACCES else Ok e
      | None => Throw ENOENT
      end
  | None => Throw ENOENT
  end.

(** [stats.isFile()] *)
Definition isFile (stats : entry) : bool :=
  match entry_kind stats with RegularFile => true | _ => false end.

(** [fs.unlinkSync(path.join(dir, name))] *)
Definition unlinkSync (fs : filesystem) (name : jstr) : result filesystem :=
  match target fs with
  | Some d =>
      match d !! name with
      | Some e =>
          if unlink_fails e then Throw EACCES
          else
            match entry_kind e with
            | Directory => Throw EISDIR
            | _ => Ok (with_target fs (Some (delete name d)))
            end
      | None => Throw ENOENT
      end
  | None => Throw ENOENT
  end.

(** [fs.writeFileSync(path.join(dir, name), data, 'utf-8')] at the time
    [now]: a regular file of that name with these contents. *)
Definition writeFileSync (fs : filesystem) (name : jstr) (data : jstr) (now : Z)
  : result filesystem :=
  match target fs with
  | Some d =>
      if write_fails fs then Throw EACCES
      else
        let file := {| entry_kind := RegularFile; mtimeMs := now; contents := data;
                       stat_fails := false; unlink_fails := false |} in
        match entry_kind <$> d !! name with
        | Some Directory => Throw EISDIR
        | _ => Ok (with_target fs (Some (<[name := file]> d)))
        end
  | None => Throw ENOENT
  end.

(** *** Paths (POSIX) *)

(** The parts of a path between its slashes. *)
Fixpoint split_path (s : jstr) (part : jstr) : list jstr :=
  match s with
  | [] => [rev part]
  | c :: rest =>
      if (c =? 47)%N then rev part :: split_path rest [] else split_path rest (c :: part)
  end.

(** The parts of a normal absolute path, innermost first: [.] and empty
    parts go, [..] takes the part before it with it. *)
Definition normal_parts (parts : list jstr) : list jstr :=
  fold_left (λ acc part,
      if jstr_eqb part [] || jstr_eqb part (str ".") then acc
      else if jstr_eqb part (str "..") then tail acc
      else part :: acc) parts [].

(** [path.resolve(dir)] in the working directory [cwd], an absolute path. *)
Definition path_resolve (cwd dir : jstr) : jstr :=
  let full := match dir with 47%N :: _ => dir | _ => cwd ++ 47%N :: dir end in
  match rev (normal_parts (split_path full [])) with
  | [] => [47%N]
  | parts => flat_map (λ part, 47%N :: part) parts
  end.

(** [path.join(dir, name)] for a resolved [dir] and a file name. *)
Definition path_join (dir name : jstr) : jstr :=
  match dir with
  | [47%N] => 47%N :: name
  | _ => dir ++ 47%N :: name
  end.

(** *** The clock *)

(** A [Date]: what its getters return, in local time, and its epoch time. *)
Record Date : Type := {
  getFullYear : Z;
  getMonth : Z;
  getDate : Z;
  getHours : Z;
  getMinutes : Z;
  getSeconds : Z;
  getTime : Z
}.

(** [s.padStart(n, '0')] *)
Definition padStart0 (n : nat) (s : jstr) : jstr :=
  repeat 48%N (n - length s) ++ s.

(** *** The sweep and the write *)

Definition MAX_PERSIST_FILE_AGE_MS : Z := 24 * 60 * 60 * 1000.

(** The body of the loop of [cleanupPersistedFiles], its [try] and its empty
    [catch]. *)
Definition cleanup_entry (now maxAgeMs : Z) (fs : filesystem) (entry : jstr) : filesystem :=
  let attempt :=
    let* stats := statSync fs entry in
    if negb (isFile stats) then Ok fs
    else if (now - mtimeMs stats >? maxAgeMs)%Z then unlinkSync fs entry
    else Ok fs in
  match attempt with
  | Ok fs' => fs'
  | Throw _ => fs
  end.

(** [now] is what [Date.now()] returns. *)
Definition cleanupPersistedFiles (fs : filesystem) (now maxAgeMs : Z) : result filesystem :=
  if negb (existsSync fs) then Ok fs
  else
    let* entries := readdirSync fs in
    Ok (fold_left (cleanup_entry now maxAgeMs) entries fs).

Definition datestamp (now : Date) : jstr :=
  Num.String_int (getFullYear now)
  ++ padStart0 2 (Num.String_int (getMonth now + 1))
  ++ padStart0 2 (Num.String_int (getDate now))
  ++ str "-"
  ++ padStart0 2 (Num.String_int (getHours now))
  ++ padStart0 2 (Num.String_int (getMinutes now))
  ++ padStart0 2 (Num.String_int (getSeconds now)).

Definition file_name (now : Date) : jstr :=
  str "agent-result-" ++ datestamp now ++ str "-" ++ Num.String_int (getTime now) ++ str ".json".

(** [payload ?? {}] *)
Definition or_empty_object (payload : jsval) : jsval :=
  match payload with
  | JUndefined | JNull => JObj []
  | _ => payload
  end.

(** [persistResponse(payload, dir)] in the working directory [cwd], with
    [sweep_now] the value of [Date.now()] in the sweep and [now] the
    [new Date()] after it: the path returned and the file system left. *)
Definition persistResponse (payload : jsval) (dir : jstr) (cwd : jstr)
  (sweep_now : Z) (now : Date) (fs : filesystem) : result (jstr * filesystem) :=
  let resolvedDir := path_resolve cwd dir in
  let* fs := mkdirSync fs in
  let* fs := cleanupPersistedFiles fs sweep_now MAX_PERSIST_FILE_AGE_MS in
  let filePath := path_join resolvedDir (file_name now) in
  match JSON.stringify2 (or_empty_object payload) with
  | Some text =>
      let* fs := writeFileSync fs (file_name now) text (getTime now) in
      Ok (filePath, fs)
  | None => Throw (Error (str "The data argument must be of type string"))
  end.

(** A date as [new Date()] gives it in the years of four digits. *)
Definition valid_date (now : Date) : Prop :=
  (1000 <= getFullYear now <= 9999 ∧ 0 <= getMonth now <= 11 ∧ 1 <= getDate now <= 31
   ∧ 0 <= getHours now <= 23 ∧ 0 <= getMinutes now <= 59 ∧ 0 <= getSeconds now <= 59
   ∧ 0 <= getTime now)%Z.

(** ** Literals for the examples *)

(** A text written with ['] for the double quote. *)
Definition json_text (s : string) : jstr :=
  map (λ c, if (c =? 39)%N then 34%N else c) (str s).

Definition one : number := Num.of_decimal false 1 0.
Definition three : number := Num.of_decimal false 3 0.

(** ** Values of the examples *)

Definition text_entry (t : jstr) : jsval := JObj [(str "text", JStr t)].

(** [{content: [{text: "a"}, {text: "b"}]}] *)
Definition content_a_b : list (jstr * jsval) :=
  [(str "content", JArr [text_entry (str "a"); text_entry (str "b")])].

(** The content array [[{text: ''}, {text: 'b'}]], the first text empty. *)
Definition content_empty_b : list jsval := [text_entry []; text_entry (str "b")].

(** [{content: [], text: "x"}] *)
Definition empty_content_and_text : list (jstr * jsval) :=
  [(str "content", JArr []); (str "text", JStr (str "x"))].

(** [{response: {}, data: "x"}] *)
Definition response_and_data : list (jstr * jsval) :=
  [(str "response", JObj []); (str "data", JStr (str "x"))].

(** [{content: [{text: " "}]}] *)
Definition content_space : list (jstr * jsval) :=
  [(str "content", JArr [text_entry (str " ")])].

(** ** The specification's reading of the content branch *)

(** Every string [text] found in the entries of a content array, the empty
    string included: "map each element to its text field when that element
    is an object with a string text; collect all found text strings (skip
    elements without one)". *)
Definition found_texts (content : list jsval) : list jstr :=
  omap (λ entry, match Extract.entry_text entry with JStr t => Some t | _ => None end) content.

(** ** The specification's reading of the fallback chains *)

(** The first candidate that is a string of at least one code unit, the
    empty string when there is none. *)
Fixpoint first_nonempty (candidates : list (option jstr)) : jstr :=
  match candidates with
  | [] => []
  | Some (c :: s) :: _ => c :: s
  | _ :: rest => first_nonempty rest
  end.

(** The sources of each coordinate, in the order of their precedence: the
    explicit input, the primary variable, the secondary one. *)
Definition database_sources (cfg : config) : list (option jstr) :=
  [Some (getInput cfg (str "agent-database")); getenv cfg (str "AGENT_DATABASE");
   getenv cfg (str "SNOWFLAKE_DATABASE")].

Definition schema_sources (cfg : config) : list (option jstr) :=
  [Some (getInput cfg (str "agent-schema")); getenv cfg (str "AGENT_SCHEMA");
   getenv cfg (str "SNOWFLAKE_SCHEMA")].

Definition agentName_sources (cfg : config) : list (option jstr) :=
  [Some (getInput cfg (str "agent-name")); getenv cfg (str "AGENT_NAME")].

Fixpoint is_prefix (p s : jstr) : bool :=
  match p, s with
  | [], _ => true
  | a :: p', b :: s' => (a =? b)%N && is_prefix p' s'
  | _ :: _, [] => false
  end.

(** [hay] names [needle]: [needle] occurs in it. *)
Fixpoint mentions (needle hay : jstr) : bool :=
  is_prefix needle hay
  || match hay with
     | [] => false
     | _ :: rest => mentions needle rest
     end.

(** ** Configurations of the examples *)

(** Nothing is set. *)
Definition config_nothing : config := {| inputs := ∅; env := ∅ |}.

Definition config_coordinates : gmap jstr jstr :=
  {[ str "agent-database" := str "DB"; str "agent-schema" := str "PUBLIC";
     str "agent-name" := str "EMPLOYEE_AGENT" ]}.

(** The coordinates and [messages: '[]']. *)
Definition config_empty_array : config :=
  {| inputs := <[ str "messages" := str "[]" ]> config_coordinates; env := ∅ |}.

(** The coordinates and [message: 'hi']. *)
Definition config_hi : config :=
  {| inputs := <[ str "message" := str "hi" ]> config_coordinates; env := ∅ |}.

(** An explicit database beside both variables. *)
Definition config_override : config :=
  {| inputs := {[ str "agent-database" := str " DB " ]};
     env := {[ str "AGENT_DATABASE" := str "ENV_DB"; str "SNOWFLAKE_DATABASE" := str "SF_DB" ]} |}.

(** ** The specification's reading of the sweep *)

(** The entries of the target directory once it exists. *)
Definition dir_entries (fs : filesystem) : gmap jstr entry := default ∅ (target fs).

(** An entry that the sweep removes: [statSync] succeeds on it, it is a
    regular file, its age [now - mtimeMs] exceeds [maxAgeMs], and
    [unlinkSync] succeeds on it. *)
Definition removed (now maxAgeMs : Z) (e : entry) : bool :=
  negb (stat_fails e) && isFile e && (now - mtimeMs e >? maxAgeMs)%Z
  && negb (unlink_fails e).

(** What the sweep leaves of a directory. *)
Definition swept (now maxAgeMs : Z) (d : gmap jstr entry) : gmap jstr entry :=
  filter (λ kv, removed now maxAgeMs kv.2 = false) d.

(** The file that [persistResponse] writes. *)
Definition new_file (now : Date) (text : jstr) : entry :=
  {| entry_kind := RegularFile; mtimeMs := getTime now; contents := text;
     stat_fails := false; unlink_fails := false |}.

(** [{"a": 1}], and its text with an indentation of two spaces. *)
Definition payload_a1 : jsval := JObj [(str "a", JNum one)].

Definition text_a1 : jstr :=
  json_text "{" ++ newline ++ json_text "  'a': 1" ++ newline ++ json_text "}".

(** The entries of the examples: a file of two days ago, a file of an hour
    ago, a directory of two days ago, and two old files on which [statSync]
    and [unlinkSync] fail. *)
Definition example_now : Z := 1700000000000.

Definition example_entry (k : kind) (age : Z) (stat_err unlink_err : bool) : entry :=
  {| entry_kind := k; mtimeMs := example_now - age; contents := [];
     stat_fails := stat_err; unlink_fails := unlink_err |}.

Definition example_dir : gmap jstr entry :=
  {[ str "old.json" := example_entry RegularFile 172800000 false false;
     str "new.json" := example_entry RegularFile 3600000 false false;
     str "sub" := example_entry Directory 172800000 false false;
     str "gone.json" := example_entry RegularFile 172800000 true false;
     str "locked.json" := example_entry RegularFile 172800000 false true ]}.

Definition example_fs : filesystem :=
  {| target := Some example_dir; mkdir_fails := false; readdir_fails := false;
     write_fails := false |}.

Definition example_date : Date :=
  {| getFullYear := 2023; getMonth := 10; getDate := 14; getHours := 22;
     getMinutes := 13; getSeconds := 20; getTime := 1700000000123 |}.

Definition fresh_fs : filesystem :=
  {| target := None; mkdir_fails := false; readdir_fails := false; write_fails := false |}.

(** ** The rest of [main] *)

(** [parseBoolean(raw)].  [toLowerCase] stands for
    [String.prototype.toLowerCase], which follows the Unicode case tables
    of the engine and is taken as given. *)
Definition parseBoolean (toLowerCase : jstr → jstr) (raw : option jstr) : bool :=
  match raw with
  | Some raw =>
      if negb (nonempty raw) then false
      else
        let normalized := toLowerCase (trim raw) in
        jstr_eqb normalized (str "true") || jstr_eqb normalized (str "1")
        || jstr_eqb normalized (str "yes")
  | None => false
  end.

(** [core.getInput('persist-results') || process.env.AGENT_PERSIST_RESULTS] *)
Definition raw_persist_results (cfg : config) : option jstr :=
  oror (Some (getInput cfg (str "persist-results"))) (getenv cfg (str "AGENT_PERSIST_RESULTS")).

(** The persist directory of [main]: the input, else the three variables in
    turn, else [process.cwd()]. *)
Definition persistDir (cfg : config) (cwd : jstr) : jstr :=
  or_empty
    (oror (oror (oror (oror (Some (getInput cfg (str "persist-dir")))
                            (getenv cfg (str "AGENT_PERSIST_DIR")))
                      (getenv cfg (str "RUN_SQL_RESULT_DIR")))
                (getenv cfg (str "RUNNER_TEMP")))
          (Some cwd)).

(** [Boolean(process.env.GITHUB_OUTPUT || process.env.GITHUB_ACTIONS)] *)
Definition isGitHubEnv (cfg : config) : bool :=
  nonempty (or_empty (oror (getenv cfg (str "GITHUB_OUTPUT")) (getenv cfg (str "GITHUB_ACTIONS")))).

(** What [runCortexAgent] resolves to. *)
Record agent_result : Type := {
  response : jsval;
  events : jsval
}.

(** How the awaited call of [runCortexAgent] ends: it returns, it throws an
    [Error], or it throws something else. *)
Inductive outcome : Type :=
| Returned (result : agent_result)
| ThrewError (e : exn)
| ThrewOther.

(** How [main] ends: with the outputs it set, in order, and the file system
    it leaves; or with the message it passed to [core.setFailed].  What
    [main] writes to the console is not part of this. *)
Inductive run : Type :=
| Succeeded (outputs : list (jstr * jstr)) (fs : filesystem)
| Failed (message : jstr).

(** [core.setOutput(name, value)] belongs to the runner's tool kit, not to
    this repository: it appends to the file that [GITHUB_OUTPUT] names, or
    writes a command to the console, and it throws when that fails.  A
    [setOutput_call] tells, for a call after the outputs [outputs] were
    set, the error that the call throws, if it throws. *)
Definition setOutput_call : Type := list (jstr * jstr) → jstr → jstr → option exn.

(** [emitOutput(name, value)] after the outputs set so far; an [undefined]
    value is set as the empty string, as [core.setOutput] does. *)
Definition emitOutput (setOutput : setOutput_call) (github : bool)
  (outputs : list (jstr * jstr)) (name : jstr) (value : option jstr)
  : result (list (jstr * jstr)) :=
  if github then
    match setOutput outputs name (default [] value) with
    | Some e => Throw e
    | None => Ok (outputs ++ [(name, default [] value)])
    end
  else Ok outputs.

(** [{ persisted: true, path: persistedPath }] *)
Definition persisted_marker (path : jstr) : jsval :=
  JObj [(str "persisted", JBool true); (str "path", JStr path)].

(** The statements of [main] after the awaited call returned [result]:
    persist or not, then the outputs.  An error thrown on the way is
    caught by [main] and ends the run with its message. *)
Definition report (setOutput : setOutput_call) (github persistResults : bool)
  (dir cwd : jstr) (sweep_now : Z) (now : Date) (fs : filesystem)
  (result : agent_result) : run :=
  let persisted :=
    if persistResults then
      match persistResponse (response result) dir cwd sweep_now now fs with
      | Ok (path, fs') => Ok (Some path, fs')
      | Throw e => Throw e
      end
    else Ok (None, fs) in
  match persisted with
  | Throw e => Failed (message e)
  | Ok (persistedPath, fs') =>
      let emitted :=
        let* outputs :=
          (if persistResults && nonempty (or_empty persistedPath) then
             let* outputs :=
               emitOutput setOutput github [] (str "result-json")
                 (JSON.stringify (persisted_marker (or_empty persistedPath))) in
             emitOutput setOutput github outputs (str "result-file") persistedPath
           else
             let* outputs :=
               emitOutput setOutput github [] (str "result-json")
                 (JSON.stringify (or_empty_object (response result))) in
             emitOutput setOutput github outputs (str "result-file") (Some [])) in
        let* outputs :=
          emitOutput setOutput github outputs (str "events-json")
            (JSON.stringify (events result)) in
        match Extract.extractAnswerText (response result) with
        | Some answerText =>
            if nonempty answerText
            then emitOutput setOutput github outputs (str "answer-text") (Some answerText)
            else Ok outputs
        | None => Ok outputs
        end in
      match emitted with
      | Ok outputs => Succeeded outputs fs'
      | Throw e => Failed (message e)
      end
  end.

(** [main()], with the awaited [runCortexAgent] as a function of the request
    it is passed, in the working directory [cwd], with [sweep_now] and
    [now] the two readings of the clock in [persistResponse]. *)
Definition main (toLowerCase : jstr → jstr) (setOutput : setOutput_call)
  (runCortexAgent : request → outcome)
  (cfg : config) (cwd : jstr) (sweep_now : Z) (now : Date) (fs : filesystem) : run :=
  match main_request cfg with
  | Throw e => Failed (message e)
  | Ok req =>
      let persistResults := parseBoolean toLowerCase (raw_persist_results cfg) in
      let dir := persistDir cfg cwd in
      match runCortexAgent req with
      | Returned result =>
          report setOutput (isGitHubEnv cfg) persistResults dir cwd sweep_now now fs result
      | ThrewError e => Failed (message e)
      | ThrewOther => Failed (str "Unknown error when running Cortex Agent")
      end
  end.

(** ** Notions for the further properties *)

(** The outputs that the statements after the call set when every output
    call succeeds. *)
Definition outputs_of (persistedPath : option jstr) (result : agent_result)
  : list (jstr * jstr) :=
  [(str "result-json",
    default [] (JSON.stringify
                  match persistedPath with
                  | Some path => persisted_marker path
                  | None => or_empty_object (response result)
                  end));
   (str "result-file", or_empty persistedPath);
   (str "events-json", default [] (JSON.stringify (events result)))]
  ++ match Extract.extractAnswerText (response result) with
     | Some answerText => [(str "answer-text", answerText)]
     | None => []
     end.

(** Every string that occurs as a value in [v], at any depth. *)
Fixpoint strings_in (v : jsval) : list jstr :=
  match v with
  | JStr s => [s]
  | JArr items => flat_map strings_in items
  | JObj props =>
      (fix of_props (props : list (jstr * jsval)) : list jstr :=
         match props with
         | [] => []
         | (_, x) :: rest => strings_in x ++ of_props rest
         end) props
  | _ => []
  end.

(** [w] wraps [v] in envelopes: single [response] or [data] fields and
    one-element arrays, to any depth. *)
Inductive envelope (v : jsval) : jsval → Prop :=
| envelope_here : envelope v v
| envelope_response w : envelope v w → envelope v (JObj [(str "response", w)])
| envelope_data w : envelope v w → envelope v (JObj [(str "data", w)])
| envelope_array w : envelope v w → envelope v (JArr [w]).

(** ASCII lower case, code unit by code unit. *)
Definition ascii_lower (c : N) : N :=
  if ((65 <=? c) && (c <=? 90))%N then (c + 32)%N else c.

Definition is_ascii (s : jstr) : bool := forallb (λ c, (c <? 128)%N) s.

(** Variables set besides the coordinates of the examples. *)
Definition config_github : config :=
  {| inputs := <[ str "message" := str "hi" ]> config_coordinates;
     env := {[ str "GITHUB_ACTIONS" := str "true" ]} |}.

Definition config_github_persist : config :=
  {| inputs := <[ str "persist-results" := str "true" ]>
                 (<[ str "message" := str "hi" ]> config_coordinates);
     env := {[ str "GITHUB_ACTIONS" := str "true"; str "RUNNER_TEMP" := str "/tmp/run" ]} |}.

(** The plain message in the variable, with white space around it. *)
Definition config_padded_message : config :=
  {| inputs := config_coordinates; env := {[ str "AGENT_MESSAGE" := str " hi " ]} |}.

(** A collaborator that answers [{content: [{text: 'hello'}]}] with no
    events. *)
Definition hello_result : agent_result :=
  {| response := JObj [(str "content", JArr [text_entry (str "hello")])];
     events := JArr [] |}.

Definition hello_agent (req : request) : outcome := Returned hello_result.

(** Output calls that all succeed, and output calls that all fail as the
    tool kit does without the file that [GITHUB_OUTPUT] names. *)
Definition setOutput_succeeds : setOutput_call := λ _ _ _, None.

Definition setOutput_fails : setOutput_call :=
  λ _ _ _, Some (Error (str "Missing file at path: /runner/output")).

(** A primary variable of white space only beside a good secondary one. *)
Definition config_blank_primary : config :=
  {| inputs := ∅;
     env := {[ str "AGENT_DATABASE" := str "  "; str "SNOWFLAKE_DATABASE" := str "DB" ]} |}.

(** A second date, five seconds after the first, and the file systems that
    two persist calls into a fresh directory leave. *)
Definition example_date_later : Date :=
  {| getFullYear := 2023; getMonth := 10; getDate := 14; getHours := 22;
     getMinutes := 13; getSeconds := 25; getTime := 1700000005000 |}.

Definition fs_after_first : filesystem :=
  with_target fresh_fs (Some {[ file_name example_date := new_file example_date text_a1 ]}).

Definition fs_after_second : filesystem :=
  with_target fresh_fs
    (Some (<[ file_name example_date_later := new_file example_date_later (str "{}") ]>
             {[ file_name example_date := new_file example_date text_a1 ]})).
(** ** Facts about strings *)

Lemma trimStart_blank (s : jstr) : blank s = true → trimStart s = [].
Proof.
  induction s as [|c s IH]; simpl; [done|].
  intros [Hc Hs]%andb_prop. rewrite Hc. auto.
Qed.

Lemma trimStart_nil (s : jstr) : trimStart s = [] → blank s = true.
Proof.
  induction s as [|c s IH]; simpl; [done|].
  destruct (is_ws c); [auto | discriminate].
Qed.

Lemma blank_rev (s : jstr) : blank (rev s) = blank s.
Proof.
  unfold blank. induction s as [|c s IH]; simpl; [done|].
  rewrite forallb_app, IH. simpl. rewrite andb_true_r. apply andb_comm.
Qed.

Lemma trimStart_head (s : jstr) c rest :
  trimStart s = c :: rest → is_ws c = false.
Proof.
  induction s as [|d s IH]; simpl; [discriminate|].
  destruct (is_ws d) eqn:Hd; [auto|]. intros [= -> _]. exact Hd.
Qed.

Lemma trim_blank (s : jstr) : blank s = true → trim s = [].
Proof. intros H. unfold trim. rewrite trimStart_blank by done. reflexivity. Qed.

Lemma trim_nil (s : jstr) : trim s = [] → blank s = true.
Proof.
  unfold trim, trimEnd. intros H.
  assert (Hr : trimStart (rev (trimStart s)) = []).
  { destruct (trimStart (rev (trimStart s))); [done|].
    simpl in H. destruct (rev l); discriminate. }
  apply trimStart_nil in Hr. rewrite blank_rev in Hr.
  destruct (trimStart s) as [|c rest] eqn:Hs; [by apply trimStart_nil|].
  apply trimStart_head in Hs. simpl in Hr. rewrite Hs in Hr. discriminate.
Qed.

Lemma nonempty_trim (s : jstr) : nonempty (trim s) = negb (blank s).
Proof.
  destruct (blank s) eqn:Hb.
  - by rewrite trim_blank.
  - destruct (trim s) eqn:Ht; [|done].
    apply trim_nil in Ht. congruence.
Qed.

Lemma length_trim_pos (s : jstr) : (0 <? length (trim s))%nat = negb (blank s).
Proof. rewrite <- nonempty_trim. by destruct (trim s). Qed.

Lemma nonempty_not_nil (s : jstr) : nonempty s = true ↔ s ≠ [].
Proof. destruct s; simpl; split; try done. Qed.

Lemma join_nonempty sep (p : jstr) parts :
  p ≠ [] → join sep (p :: parts) ≠ [].
Proof. destruct p; [done|]. destruct parts; simpl; done. Qed.

Lemma trimStart_split (s : jstr) :
  ∃ pre, s = pre ++ trimStart s ∧ blank pre = true.
Proof.
  induction s as [|c s (pre & Hs & Hpre)]; simpl.
  - by exists [].
  - destruct (is_ws c) eqn:Hc.
    + exists (c :: pre). simpl. rewrite Hc, Hpre. split; [by f_equal | done].
    + by exists [].
Qed.

Lemma trimStart_fixed (c : N) (s : jstr) :
  is_ws c = false → trimStart (c :: s) = c :: s.
Proof. intros H. simpl. by rewrite H. Qed.

Lemma trimStart_idem (s : jstr) : trimStart (trimStart s) = trimStart s.
Proof.
  destruct (trimStart s) as [|c rest] eqn:Hs; [done|].
  apply trimStart_fixed. by eapply trimStart_head.
Qed.

(** Trimming the end of a string leaves its start alone. *)
Lemma trimStart_trimEnd (c : N) (s : jstr) :
  is_ws c = false → trimStart (trimEnd (c :: s)) = trimEnd (c :: s).
Proof.
  intros Hc. unfold trimEnd.
  destruct (trimStart_split (rev (c :: s))) as (pre & Hsplit & Hpre).
  set (u := trimStart (rev (c :: s))) in *.
  assert (Hrev : c :: s = rev u ++ rev pre).
  { rewrite <- rev_app_distr, <- Hsplit. by rewrite rev_involutive. }
  destruct (rev u) as [|d u'] eqn:Hu.
  - done.
  - simpl in Hrev. injection Hrev as <- _. by apply trimStart_fixed.
Qed.

Lemma trimEnd_idem (s : jstr) : trimEnd (trimEnd s) = trimEnd s.
Proof. unfold trimEnd. by rewrite rev_involutive, trimStart_idem. Qed.

(** [trim] is idempotent: a trimmed string trims to itself. *)
Lemma trim_idem (s : jstr) : trim (trim s) = trim s.
Proof.
  unfold trim. destruct (trimStart s) as [|c rest] eqn:Hs; [done|].
  apply trimStart_head in Hs. rewrite trimStart_trimEnd by done.
  apply trimEnd_idem.
Qed.

Lemma trim_not_nil (s : jstr) : trim s ≠ [] ↔ blank s = false.
Proof.
  split.
  - intros H. destruct (blank s) eqn:Hb; [|done]. by apply trim_blank in Hb.
  - intros Hb Ht. apply trim_nil in Ht. congruence.
Qed.

(** ** Answer extraction: the equations of the source *)

Section ExtractFacts.

Import Extract.

Lemma extract_falsy (payload : jsval) :
  truthy payload = false → extractAnswerText payload = None.
Proof. intros H. destruct payload; simpl in *; rewrite ?H; try done. Qed.

Lemma extract_string (s : jstr) :
  extractAnswerText (JStr s) = if blank s then None else Some s.
Proof.
  simpl. rewrite nonempty_trim.
  destruct s as [|c s]; [done|]. cbn [nonempty negb]. by destruct (blank (c :: s)).
Qed.

Lemma extract_array (items : list jsval) :
  extractAnswerText (JArr items) = first_answer items.
Proof. simpl. induction items as [|item rest IH]; simpl; [done|]. by rewrite IH. Qed.

(** The statements of the object case in the order of the source: each
    [if] returns or falls through to the next. *)
Lemma extract_object (record : list (jstr * jsval)) :
  extractAnswerText (JObj record) =
    or_next (content_branch record)
      (or_next (text_branch record)
         (or_next (nested_branch record (str "response"))
            (nested_branch record (str "data")))).
Proof.
  simpl.
  assert (Hn : ∀ key,
    (fix nestedIn (key : jstr) (props : list (jstr * jsval)) : option jstr :=
       match props with
       | [] => None
       | (k, v) :: rest =>
           if jstr_eqb k key
           then (if truthy v then pass (extractAnswerText v) else None)
           else nestedIn key rest
       end) key record = nested_branch record key).
  { intros key. unfold nested_branch.
    induction record as [|[k v] rest IH]; simpl; [done|].
    destruct (jstr_eqb k key); [done | exact IH]. }
  by rewrite !Hn.
Qed.

Lemma pass_nonempty (r : option jstr) (s : jstr) : pass r = Some s → s ≠ [].
Proof.
  destruct r as [t|]; simpl; [|done].
  destruct t; simpl; [done|]. by intros [= <-].
Qed.

Lemma keep_part_nonempty (v : jsval) (s : jstr) : keep_part v = Some s → s ≠ [].
Proof.
  destruct v; simpl; try done.
  destruct s0; simpl; [done|]. by intros [= <-].
Qed.

Lemma textParts_nonempty (content : list jsval) :
  Forall (λ part, part ≠ []) (textParts content).
Proof.
  unfold textParts. induction content as [|entry rest IH]; simpl; [constructor|].
  destruct (keep_part (entry_text entry)) eqn:Hk; simpl; [|exact IH].
  constructor; [by eapply keep_part_nonempty | exact IH].
Qed.

Lemma content_branch_nonempty (record : list (jstr * jsval)) (s : jstr) :
  content_branch record = Some s → s ≠ [].
Proof.
  unfold content_branch. destruct (get record (str "content")); try done.
  pose proof (textParts_nonempty items) as Hall.
  destruct (textParts items) as [|p parts]; [done|].
  cbn [length Nat.ltb Nat.leb]. intros [= <-]. apply (join_nonempty newline p parts). by inversion Hall.
Qed.

Lemma text_branch_nonempty (record : list (jstr * jsval)) (s : jstr) :
  text_branch record = Some s → s ≠ [].
Proof.
  unfold text_branch. destruct (get record (str "text")); try done.
  rewrite length_trim_pos. destruct s0 as [|c t]; [done|].
  destruct (negb (blank (c :: t))); [|done]. by intros [= <-].
Qed.

Lemma first_answer_nonempty (items : list jsval) (s : jstr) :
  first_answer items = Some s → s ≠ [].
Proof.
  induction items as [|item rest IH]; simpl; [done|].
  destruct (pass (extractAnswerText item)) eqn:Hp; simpl.
  - intros [= <-]. by eapply pass_nonempty.
  - exact IH.
Qed.

(** The parts of a content array, entry by entry: an object whose [text] is
    a string of at least one code unit gives that string, any other entry
    gives nothing. *)
Lemma textParts_cons (entry : jsval) (rest : list jsval) :
  textParts (entry :: rest) =
    match entry with
    | JObj props =>
        match get props (str "text") with
        | JStr (c :: t) => (c :: t) :: textParts rest
        | _ => textParts rest
        end
    | _ => textParts rest
    end.
Proof.
  unfold textParts. simpl. unfold entry_text.
  destruct entry; simpl; try done.
  - by destruct b.
  - by destruct x.
  - by destruct s.
  - destruct (get props (str "text")); simpl; try done. by destruct s.
Qed.

End ExtractFacts.

(** ** Facts about numbers *)

Section NumFacts.

Import Num.
Local Open Scope Z_scope.

Lemma of_int53_value (neg : bool) (n : Z) :
  0 <= n → int_value (of_int53 neg n) = Some (cond_Zopp neg n).
Proof.
  intros Hn. unfold of_int53.
  set (shift := Z.max 0 (prec - Z.log2 n - 1)).
  assert (Hs : 0 <= shift) by (unfold shift; lia).
  rewrite Z.shiftl_mul_pow2 by done.
  destruct (Z.eq_dec n 0) as [->|Hn0].
  { simpl. by destruct neg. }
  assert (Hp : 0 < 2 ^ shift) by (apply Z.pow_pos_nonneg; lia).
  destruct (n * 2 ^ shift) as [|m|m] eqn:Hm; [nia| |nia].
  unfold int_value.
  destruct (0 <=? - shift) eqn:He.
  - apply Z.leb_le in He. assert (shift = 0) as Hz by lia.
    rewrite Hz in *. simpl in Hm. rewrite Z.mul_1_r in Hm.
    replace (- 0) with 0 by done. rewrite Z.pow_0_r, Z.mul_1_r. by rewrite Hm.
  - rewrite Z.opp_involutive, <- Hm, Z.mod_mul by lia. simpl.
    f_equal. destruct neg; simpl.
    + rewrite <- Z.mul_opp_l. apply Z.div_mul. lia.
    + apply Z.div_mul. lia.
Qed.

(** [Math.floor] of a finite number is the integer below it. *)
Lemma Math_floor_spec (x : number) :
  is_finite x = true → int_value (Math_floor x) = floorZ x.
Proof.
  destruct x as [s|s| |neg m e]; try done. intros _.
  unfold Math_floor, floorZ. destruct (0 <=? e) eqn:He.
  { unfold int_value. by rewrite He. }
  apply Z.leb_gt in He.
  assert (Hp : 0 < 2 ^ (- e)) by (apply Z.pow_pos_nonneg; lia).
  rewrite Z.shiftr_div_pow2, Z.shiftl_mul_pow2 by lia.
  pose proof (Z.div_mod (Z.pos m) (2 ^ (- e)) ltac:(lia)) as Hdm.
  pose proof (Z.mod_pos_bound (Z.pos m) (2 ^ (- e)) Hp) as Hb.
  set (q := Z.pos m / 2 ^ (- e)) in *.
  set (r := Z.pos m mod 2 ^ (- e)) in *.
  assert (Hq : 0 <= q) by (apply Z.div_pos; lia).
  rewrite of_int53_value by (destruct (neg && _); lia).
  f_equal. destruct neg; simpl.
  - destruct (q * 2 ^ (- e) =? Z.pos m) eqn:Hex; simpl.
    + apply Z.eqb_eq in Hex. apply Z.div_unique with (r := 0); lia.
    + apply Z.eqb_neq in Hex.
      apply Z.div_unique with (r := 2 ^ (- e) - r); lia.
  - by destruct (q * 2 ^ (- e) =? Z.pos m).
Qed.

(** An infinity is its own floor, and no integer. *)
Lemma Math_floor_infinity (neg : bool) :
  Math_floor (S754_infinity neg) = S754_infinity neg
  ∧ isInteger (S754_infinity neg) = false.
Proof. done. Qed.

(** *** Decimal digits *)

Lemma digits_value_from (ds : jstr) (a : Z) :
  fold_left (λ acc c, 10 * acc + (Z.of_N c - 48)) ds a
  = a * 10 ^ Z.of_nat (length ds) + digits_value ds.
Proof.
  unfold digits_value. revert a.
  induction ds as [|c ds IH]; intros a; simpl fold_left.
  - simpl. lia.
  - rewrite IH, (IH (10 * 0 + _)).
    replace (Z.of_nat (length (c :: ds))) with (Z.succ (Z.of_nat (length ds)))
      by (simpl length; lia).
    rewrite Z.pow_succ_r by lia. lia.
Qed.

Lemma digits_value_cons (c : N) (ds : jstr) :
  digits_value (c :: ds) = (Z.of_N c - 48) * 10 ^ Z.of_nat (length ds) + digits_value ds.
Proof.
  unfold digits_value at 1. simpl fold_left. rewrite digits_value_from. lia.
Qed.

Lemma digits_value_app (a b : jstr) :
  digits_value (a ++ b) = digits_value a * 10 ^ Z.of_nat (length b) + digits_value b.
Proof.
  unfold digits_value at 1. rewrite fold_left_app.
  fold (digits_value a). apply digits_value_from.
Qed.

Lemma digits_fuel_S (fuel : nat) (n : Z) (acc : jstr) :
  digits_fuel (S fuel) n acc =
    if n <? 10 then (48 + Z.to_N (n mod 10))%N :: acc
    else digits_fuel fuel (n / 10) ((48 + Z.to_N (n mod 10))%N :: acc).
Proof. reflexivity. Qed.

Lemma digits_fuel_spec (fuel : nat) (n : Z) (acc : jstr) :
  0 <= n < 2 ^ Z.of_nat (S fuel) →
  all_digits acc = true →
  let ds := digits_fuel (S fuel) n acc in
  all_digits ds = true ∧ ds ≠ []
  ∧ digits_value ds = n * 10 ^ Z.of_nat (length acc) + digits_value acc.
Proof.
  revert n acc. induction fuel as [|fuel IH]; intros n acc Hn Hacc;
    cbn zeta; rewrite digits_fuel_S.
  all: assert (Hmod : 0 <= n mod 10 < 10) by (apply Z.mod_pos_bound; lia).
  all: assert (Hd : is_digit (48 + Z.to_N (n mod 10)) = true)
         by (unfold is_digit; apply andb_true_intro; split; apply N.leb_le; lia).
  all: assert (Hv : Z.of_N (48 + Z.to_N (n mod 10)) - 48 = n mod 10) by lia.
  all: destruct (n <? 10) eqn:Hlt;
         [apply Z.ltb_lt in Hlt; repeat split;
          [by simpl; rewrite Hd, Hacc | done
          | rewrite digits_value_cons, Hv, Z.mod_small by lia; lia] |].
  - apply Z.ltb_ge in Hlt. simpl in Hn. lia.
  - apply Z.ltb_ge in Hlt.
    assert (Hdiv : 0 <= n / 10 < 2 ^ Z.of_nat (S fuel)).
    { split; [apply Z.div_pos; lia|].
      apply Z.div_lt_upper_bound; [lia|].
      replace (Z.of_nat (S (S fuel))) with (Z.succ (Z.of_nat (S fuel))) in Hn by lia.
      rewrite Z.pow_succ_r in Hn by lia. lia. }
    edestruct (IH (n / 10) ((48 + Z.to_N (n mod 10))%N :: acc)) as (H1 & H2 & H3);
      [done | by simpl; rewrite Hd, Hacc |].
    repeat split; [done|done|].
    rewrite H3, digits_value_cons, Hv.
    replace (Z.of_nat (length (_ :: acc))) with (Z.succ (Z.of_nat (length acc)))
      by (simpl length; lia).
    rewrite Z.pow_succ_r by lia.
    pose proof (Z.div_mod n 10 ltac:(lia)). nia.
Qed.

(** The decimal form of a natural number is made of digits, at least one,
    and reads back as the number. *)
Lemma decimal_spec (n : Z) :
  0 <= n →
  all_digits (decimal n) = true ∧ decimal n ≠ [] ∧ digits_value (decimal n) = n.
Proof.
  intros Hn. unfold decimal.
  edestruct (digits_fuel_spec (Z.to_nat (Z.log2 n)) n []) as (H1 & H2 & H3);
    [|done|].
  - split; [done|].
    destruct (Z.eq_dec n 0) as [->|Hn0]; [done|].
    replace (Z.of_nat (S (Z.to_nat (Z.log2 n)))) with (Z.succ (Z.log2 n))
      by (pose proof (Z.log2_nonneg n); lia).
    apply Z.log2_spec. lia.
  - repeat split; [done|done|]. rewrite H3.
    change (Z.of_nat (length (@nil N))) with 0. change (digits_value []) with 0.
    rewrite Z.pow_0_r. lia.
Qed.

Lemma String_int_nat (n : Z) : 0 <= n → String_int n = decimal n.
Proof. intros Hn. unfold String_int. by rewrite (proj2 (Z.ltb_ge n 0) Hn). Qed.

End NumFacts.

(** ** Facts about the JSON reader *)

Section JSONFacts.

Import JSON.

Lemma skip_ws_length (s : jstr) : (length (skip_ws s) <= length s)%nat.
Proof.
  induction s as [|c s IH]; simpl; [lia|].
  destruct (is_json_ws c); simpl; lia.
Qed.

Lemma skip_ws_elem (s : jstr) (c : N) (rest : jstr) :
  skip_ws s = c :: rest → In c s.
Proof.
  induction s as [|d s IH]; simpl; [done|].
  destruct (is_json_ws d); [auto|]. intros [= -> _]. by left.
Qed.

Lemma span_digits_length (s ds r : jstr) :
  Num.span_digits s = (ds, r) → length s = (length ds + length r)%nat.
Proof.
  revert ds r. induction s as [|c s IH]; intros ds r; simpl.
  - by intros [= <- <-].
  - destruct (Num.is_digit c).
    + destruct (Num.span_digits s) as [ds' r'] eqn:Hs. intros [= <- <-].
      simpl. by rewrite (IH ds' r').
    + by intros [= <- <-].
Qed.

Lemma span_digits_head (c : N) (s ds r : jstr) :
  Num.span_digits (c :: s) = (ds, r) → ds ≠ [] → Num.is_digit c = true.
Proof.
  simpl. destruct (Num.is_digit c); [done|]. by intros [= <- <-].
Qed.

Lemma starts_with_length (lit s r : jstr) :
  starts_with lit s = Some r → length s = (length lit + length r)%nat.
Proof.
  revert s. induction lit as [|a lit IH]; intros s; simpl.
  - by intros [= ->].
  - destruct s as [|b s]; [done|]. destruct (a =? b)%N; [|done].
    intros H. simpl. by rewrite (IH s H).
Qed.

Lemma starts_with_head (a : N) (lit : jstr) (c : N) (s r : jstr) :
  starts_with (a :: lit) (c :: s) = Some r → c = a.
Proof.
  simpl. destruct (a =? c)%N eqn:H; [|done]. intros _.
  apply N.eqb_eq in H. done.
Qed.

Lemma sign_prefix_length (plus : bool) (s : jstr) :
  (length (Num.sign_prefix plus s).2 <= length s)%nat.
Proof.
  unfold Num.sign_prefix. destruct s as [|c r]; simpl; [lia|].
  destruct (c =? 45)%N; simpl; [lia|].
  destruct (plus && (c =? 43)%N); simpl; lia.
Qed.

Lemma fraction_length (s fp r : jstr) :
  fraction s = Some (fp, r) → (length r <= length s)%nat.
Proof.
  unfold fraction. destruct s as [|c s']; [by intros [= <- <-]|].
  destruct (c =? 46)%N; [|by intros [= <- <-]].
  destruct (Num.span_digits s') as [fp' r2] eqn:Hfp.
  apply span_digits_length in Hfp. destruct fp'; [done|].
  intros [= <- <-]. simpl in *. lia.
Qed.

Lemma exponent_length (s : jstr) (e : Z) (r : jstr) :
  exponent s = Some (e, r) → (length r <= length s)%nat.
Proof.
  unfold exponent. destruct s as [|c s']; [by intros [= <- <-]|].
  destruct ((c =? 101) || (c =? 69))%N; [|by intros [= <- <-]].
  pose proof (sign_prefix_length true s') as Hsg.
  destruct (Num.sign_prefix true s') as [eneg r']. simpl in Hsg.
  destruct (Num.span_digits r') as [ds r3] eqn:Hds.
  apply span_digits_length in Hds. destruct ds; [done|].
  intros [= <- <-]. simpl in *. lia.
Qed.

(** A number literal is not empty and begins with a minus sign or a
    digit. *)
Lemma number_literal_head (s : jstr) (x : number) (r : jstr) :
  number_literal s = Some (x, r) →
  (length r < length s)%nat
  ∧ ∃ c rest, s = c :: rest ∧ (c = 45%N ∨ Num.is_digit c = true).
Proof.
  unfold number_literal.
  pose proof (sign_prefix_length false s) as Hsg.
  destruct (Num.sign_prefix false s) as [neg s1] eqn:Hsign. simpl in Hsg.
  destruct (Num.span_digits s1) as [ip r1] eqn:Hip.
  pose proof (span_digits_length _ _ _ Hip) as Hl1.
  destruct ip as [|d ip']; [done|].
  change (negb (nonempty (d :: ip'))) with false.
  destruct (leading_zero (d :: ip')); cbn [orb]; [done|].
  destruct (fraction r1) as [[fp r2]|] eqn:Hf; [|done].
  destruct (exponent r2) as [[e r3]|] eqn:He; [|done].
  intros [= _ <-].
  apply fraction_length in Hf. apply exponent_length in He.
  split; [simpl in Hl1; lia|].
  destruct s as [|c rest]; [simpl in Hsg; simpl in Hl1; lia|].
  exists c, rest. split; [done|].
  unfold Num.sign_prefix in Hsign. destruct (c =? 45)%N eqn:Hc.
  - left. by apply N.eqb_eq.
  - simpl in Hsign. injection Hsign as <- <-. right.
    by eapply span_digits_head.
Qed.

(** A value begins, after white space, with a character that cannot be
    trimmed off a string. *)
Lemma literal_head (s : jstr) (v : jsval) (r : jstr) :
  literal s = Parsed v r →
  (length r < length s)%nat ∧ ∃ c rest, s = c :: rest ∧ is_ws c = false.
Proof.
  unfold literal.
  destruct (starts_with (str "true") s) as [r1|] eqn:H1.
  { intros [= _ <-]. pose proof (starts_with_length _ _ _ H1) as Hl.
    split; [simpl in Hl; lia|]. destruct s as [|c rest]; [done|].
    apply starts_with_head in H1 as ->. eauto. }
  destruct (starts_with (str "false") s) as [r2|] eqn:H2.
  { intros [= _ <-]. pose proof (starts_with_length _ _ _ H2) as Hl.
    split; [simpl in Hl; lia|]. destruct s as [|c rest]; [done|].
    apply starts_with_head in H2 as ->. eauto. }
  destruct (starts_with (str "null") s) as [r3|] eqn:H3.
  { intros [= _ <-]. pose proof (starts_with_length _ _ _ H3) as Hl.
    split; [simpl in Hl; lia|]. destruct s as [|c rest]; [done|].
    apply starts_with_head in H3 as ->. eauto. }
  destruct (number_literal s) as [[x r4]|] eqn:H4; [|done].
  intros [= _ <-]. apply number_literal_head in H4 as (Hl & c & rest & -> & Hc).
  split; [done|]. exists c, rest. split; [done|].
  destruct Hc as [->|Hc]; [done|].
  unfold Num.is_digit in Hc. apply andb_prop in Hc as [Ha Hb].
  apply N.leb_le in Ha, Hb. unfold is_ws.
  rewrite (proj2 (N.leb_gt c 13)) by lia.
  rewrite (proj2 (N.leb_gt 8192 c)) by lia.
  rewrite !(proj2 (N.eqb_neq c _)) by lia.
  by rewrite andb_false_r.
Qed.

Lemma value_head (fuel : nat) (s : jstr) (v : jsval) (r : jstr) :
  value fuel s = Parsed v r → ∃ c rest, skip_ws s = c :: rest ∧ is_ws c = false.
Proof.
  destruct fuel as [|fuel]; [done|]. simpl.
  destruct (skip_ws s) as [|c rest]; [done|].
  destruct (c =? 34)%N eqn:H34.
  { apply N.eqb_eq in H34 as ->. eauto. }
  destruct (c =? 91)%N eqn:H91.
  { apply N.eqb_eq in H91 as ->. eauto. }
  destruct (c =? 123)%N eqn:H123.
  { apply N.eqb_eq in H123 as ->. eauto. }
  intros H. apply literal_head in H as (_ & c' & rest' & [= <- <-] & Hc). eauto.
Qed.

(** No blank text parses. *)
Lemma parse_not_blank (text : jstr) (v : jsval) :
  parse text = Ok v → blank text = false.
Proof.
  unfold parse. destruct (value (S (length text)) text) as [v' rest| |] eqn:Hv; [|done|done].
  intros _. apply value_head in Hv as (c & rest' & Hs & Hc).
  apply skip_ws_elem in Hs.
  destruct (blank text) eqn:Hb; [|done].
  unfold blank in Hb. rewrite forallb_forall in Hb. specialize (Hb c Hs). congruence.
Qed.

(** *** The fuel of the reader never runs out *)

Lemma string_body_length (s acc text r : jstr) :
  string_body s acc = Some (text, r) → (length r < length s)%nat.
Proof.
  remember (length s) as n eqn:Hn. revert s acc Hn.
  induction (lt_wf n) as [n _ IH]. intros s acc -> H.
  destruct s as [|c rest]; [done|]. simpl in H.
  destruct (c =? 34)%N.
  { injection H as _ <-. simpl. lia. }
  destruct (c =? 92)%N.
  - destruct rest as [|esc rest']; [done|].
    destruct (simple_escape esc).
    + eapply IH in H; [| |reflexivity]; simpl; lia.
    + destruct (esc =? 117)%N; [|done].
      destruct rest' as [|h1 [|h2 [|h3 [|h4 rest'']]]]; try done.
      destruct (hex4 h1 h2 h3 h4); [|done].
      eapply IH in H; [| |reflexivity]; simpl; lia.
  - destruct (c <? 32)%N; [done|].
    eapply IH in H; [| |reflexivity]; simpl; lia.
Qed.

Lemma after_value_length (close : N) (s : jstr) :
  match after_value close s with
  | Comma r | Close r => (length r < length s)%nat
  | Neither _ => True
  end.
Proof.
  unfold after_value. pose proof (skip_ws_length s) as Hl.
  destruct (skip_ws s) as [|c rest]; [done|]. simpl in Hl.
  destruct (c =? 44)%N; [lia|]. destruct (c =? close)%N; [lia|done].
Qed.

Lemma member_name_length (s key r : jstr) :
  member_name s = Some (key, r) → (length r < length s)%nat.
Proof.
  unfold member_name. pose proof (skip_ws_length s) as Hl.
  destruct (skip_ws s) as [|c rest]; [done|]. simpl in Hl.
  destruct (c =? 34)%N; [|done].
  destruct (string_body rest []) as [[k r1]|] eqn:Hb; [|done].
  apply string_body_length in Hb. pose proof (skip_ws_length r1) as Hl1.
  destruct (skip_ws r1) as [|c' r2]; [done|]. simpl in Hl1.
  destruct (c' =? 58)%N; [|done]. intros [= _ <-]. lia.
Qed.

Lemma closes_at_once_length (close : N) (s r : jstr) :
  closes_at_once close s = Some r → (length r < length s)%nat.
Proof.
  unfold closes_at_once. pose proof (skip_ws_length s) as Hl.
  destruct (skip_ws s) as [|c rest]; [done|]. simpl in Hl.
  destruct (c =? close)%N; [|done]. intros [= <-]. lia.
Qed.

Lemma elements_consumes (value : jstr → parsed) (fuel : nat) (acc : list jsval) :
  consumes value → consumes (λ s, elements value fuel s acc).
Proof.
  intros Hv. revert acc. induction fuel as [|fuel IH]; intros acc s v r; simpl; [done|].
  destruct (value s) as [v' r'| |] eqn:Hs; [|done|done].
  apply Hv in Hs. pose proof (after_value_length 93 r') as Ha.
  destruct (after_value 93 r') as [r''|r''|].
  - intros H. apply IH in H. lia.
  - intros [= _ <-]. lia.
  - done.
Qed.

Lemma members_consumes (value : jstr → parsed) (fuel : nat)
    (acc : list (jstr * jsval)) :
  consumes value → consumes (λ s, members value fuel s acc).
Proof.
  intros Hv. revert acc. induction fuel as [|fuel IH]; intros acc s v r; simpl; [done|].
  destruct (member_name s) as [[key r0]|] eqn:Hm; [|done].
  apply member_name_length in Hm.
  destruct (value r0) as [v' r'| |] eqn:Hs; [|done|done].
  apply Hv in Hs. pose proof (after_value_length 125 r') as Ha.
  destruct (after_value 125 r') as [r''|r''|].
  - intros H. apply IH in H. lia.
  - intros [= _ <-]. lia.
  - done.
Qed.

Lemma value_consumes (fuel : nat) : consumes (value fuel).
Proof.
  induction fuel as [|fuel IH]; intros s v r; simpl; [done|].
  pose proof (skip_ws_length s) as Hl.
  destruct (skip_ws s) as [|c rest] eqn:Hs; [done|]. simpl in Hl.
  destruct (c =? 34)%N.
  { destruct (string_body rest []) as [[text r1]|] eqn:Hb; [|done].
    apply string_body_length in Hb. intros [= _ <-]. lia. }
  destruct (c =? 91)%N.
  { destruct (closes_at_once 93 rest) as [r1|] eqn:Hc.
    - apply closes_at_once_length in Hc. intros [= _ <-]. lia.
    - intros H. apply (elements_consumes _ _ _ IH) in H. lia. }
  destruct (c =? 123)%N.
  { destruct (closes_at_once 125 rest) as [r1|] eqn:Hc.
    - apply closes_at_once_length in Hc. intros [= _ <-]. lia.
    - intros H. apply (members_consumes _ _ _ IH) in H. lia. }
  intros H. apply literal_head in H as [H _]. simpl in H. lia.
Qed.

Lemma elements_fuel (value : jstr → parsed) (fuel : nat) (s : jstr) (acc : list jsval) :
  consumes value →
  (∀ s', (length s' <= length s)%nat → value s' ≠ OutOfFuel) →
  (length s < fuel)%nat →
  elements value fuel s acc ≠ OutOfFuel.
Proof.
  intros Hc. revert s acc. induction fuel as [|fuel IH]; intros s acc Hv Hf; [lia|].
  simpl. destruct (value s) as [v r| |] eqn:Hs; [|done|by destruct (Hv s)].
  apply Hc in Hs. pose proof (after_value_length 93 r) as Ha.
  destruct (after_value 93 r) as [r'|r'|]; [|done|done].
  apply IH; [|lia]. intros s' Hs'. apply Hv. lia.
Qed.

Lemma members_fuel (value : jstr → parsed) (fuel : nat) (s : jstr)
    (acc : list (jstr * jsval)) :
  consumes value →
  (∀ s', (length s' <= length s)%nat → value s' ≠ OutOfFuel) →
  (length s < fuel)%nat →
  members value fuel s acc ≠ OutOfFuel.
Proof.
  intros Hc. revert s acc. induction fuel as [|fuel IH]; intros s acc Hv Hf; [lia|].
  simpl. destruct (member_name s) as [[key r0]|] eqn:Hm; [|done].
  apply member_name_length in Hm.
  destruct (value r0) as [v r| |] eqn:Hs; [|done|destruct (Hv r0); [lia|done]].
  apply Hc in Hs. pose proof (after_value_length 125 r) as Ha.
  destruct (after_value 125 r) as [r'|r'|]; [|done|done].
  apply IH; [|lia]. intros s' Hs'. apply Hv. lia.
Qed.

Lemma literal_fuel (s : jstr) : literal s ≠ OutOfFuel.
Proof.
  unfold literal.
  destruct (starts_with (str "true") s); [done|].
  destruct (starts_with (str "false") s); [done|].
  destruct (starts_with (str "null") s); [done|].
  by destruct (number_literal s) as [[x r]|].
Qed.

Lemma value_fuel (fuel : nat) (s : jstr) :
  (length s < fuel)%nat → value fuel s ≠ OutOfFuel.
Proof.
  revert s. induction fuel as [|fuel IH]; intros s Hf; [lia|]. simpl.
  pose proof (skip_ws_length s) as Hl.
  destruct (skip_ws s) as [|c rest] eqn:Hs; [done|]. simpl in Hl.
  destruct (c =? 34)%N.
  { by destruct (string_body rest []) as [[text r1]|]. }
  destruct (c =? 91)%N.
  { destruct (closes_at_once 93 rest); [done|].
    apply elements_fuel; [apply value_consumes| |lia].
    intros s' Hs'. apply IH. lia. }
  destruct (c =? 123)%N.
  { destruct (closes_at_once 125 rest); [done|].
    apply members_fuel; [apply value_consumes| |lia].
    intros s' Hs'. apply IH. lia. }
  apply literal_fuel.
Qed.

(** [JSON.parse] reads every text with the fuel it takes. *)
Lemma parse_fuel (text : jstr) : value (S (length text)) text ≠ OutOfFuel.
Proof. apply value_fuel. lia. Qed.

End JSONFacts.

(** ** Facts about the sweep *)

Section SweepFacts.

Lemma with_target_same (fs : filesystem) (d : gmap jstr entry) :
  target fs = Some d → with_target fs (Some d) = fs.
Proof. destruct fs. simpl. by intros ->. Qed.

(** One turn of the loop: the entry goes when it is one that the sweep
    removes, and nothing else changes; no turn throws. *)
Lemma cleanup_entry_step (now maxAgeMs : Z) (fs : filesystem) (d : gmap jstr entry)
    (name : jstr) :
  cleanup_entry now maxAgeMs (with_target fs (Some d)) name =
    with_target fs (Some (match d !! name with
                          | Some e => if removed now maxAgeMs e then delete name d else d
                          | None => d
                          end)).
Proof.
  unfold cleanup_entry, statSync, unlinkSync, removed, isFile. simpl.
  destruct (d !! name) as [e|] eqn:He; simpl; [|done].
  destruct (stat_fails e); simpl; [done|].
  destruct (entry_kind e) eqn:Hk; simpl; try done.
  destruct (now - mtimeMs e >? maxAgeMs)%Z; simpl; [|done].
  destruct (unlink_fails e); simpl; [done|]. by rewrite ?Hk.
Qed.

(** The loop over a list of names: an entry goes when its name is in the
    list and it is one that the sweep removes. *)
Lemma cleanup_loop (now maxAgeMs : Z) (fs : filesystem) (names : list jstr)
    (d : gmap jstr entry) :
  ∃ d', fold_left (cleanup_entry now maxAgeMs) names (with_target fs (Some d))
        = with_target fs (Some d')
        ∧ ∀ name, d' !! name =
            match d !! name with
            | Some e =>
                if bool_decide (name ∈ names) && removed now maxAgeMs e then None else Some e
            | None => None
            end.
Proof.
  revert d. induction names as [|n names IH]; intros d.
  - exists d. split; [done|]. intros name.
    destruct (d !! name); [|done].
    by rewrite bool_decide_eq_false_2 by apply not_elem_of_nil.
  - simpl fold_left. rewrite cleanup_entry_step.
    set (d1 := match d !! n with
               | Some e => if removed now maxAgeMs e then delete n d else d
               | None => d
               end).
    destruct (IH d1) as (d' & Hfold & Hlook). exists d'. split; [done|].
    intros name. rewrite Hlook.
    assert (Hd1 : d1 !! name =
              match d !! name with
              | Some e => if bool_decide (name = n) && removed now maxAgeMs e
                          then None else Some e
              | None => None
              end).
    { unfold d1. destruct (decide (name = n)) as [->|Hne].
      - rewrite bool_decide_eq_true_2 by done.
        destruct (d !! n) as [e|] eqn:He; [|by rewrite He].
        destruct (removed now maxAgeMs e); simpl; [by rewrite lookup_delete_eq|by rewrite He].
      - rewrite bool_decide_eq_false_2 by done. simpl.
        destruct (d !! n) as [e|]; [|by destruct (d !! name)].
        destruct (removed now maxAgeMs e); [rewrite lookup_delete_ne by congruence|];
          by destruct (d !! name). }
    rewrite Hd1. destruct (d !! name) as [e|]; [|done].
    destruct (removed now maxAgeMs e) eqn:Hrm;
      [|by rewrite !andb_false_r, Hrm, andb_false_r].
    rewrite !andb_true_r.
    destruct (decide (name = n)) as [->|Hne].
    + rewrite !bool_decide_eq_true_2; [done|by left|done].
    + rewrite (bool_decide_eq_false_2 (name = n)) by done.
      rewrite Hrm, andb_true_r.
      destruct (decide (name ∈ names)) as [Hin|Hnot].
      * rewrite !bool_decide_eq_true_2; [done|by right|done].
      * rewrite !bool_decide_eq_false_2; [done|by apply not_elem_of_cons|done].
Qed.

Lemma swept_lookup (now maxAgeMs : Z) (d : gmap jstr entry) (name : jstr) :
  swept now maxAgeMs d !! name =
    match d !! name with
    | Some e => if removed now maxAgeMs e then None else Some e
    | None => None
    end.
Proof.
  unfold swept. destruct (d !! name) as [e|] eqn:He.
  - destruct (removed now maxAgeMs e) eqn:Hr.
    + apply map_lookup_filter_None. right. intros e' He'. simpl.
      assert (e' = e) as -> by congruence. congruence.
    + apply map_lookup_filter_Some. done.
  - apply map_lookup_filter_None. by left.
Qed.

(** The sweep of an existing directory that can be listed: it returns, and
    leaves the entries that it does not remove. *)
Lemma cleanupPersistedFiles_swept (fs : filesystem) (d : gmap jstr entry)
    (now maxAgeMs : Z) :
  target fs = Some d → readdir_fails fs = false →
  cleanupPersistedFiles fs now maxAgeMs = Ok (with_target fs (Some (swept now maxAgeMs d))).
Proof.
  intros Ht Hr. unfold cleanupPersistedFiles, existsSync, readdirSync.
  rewrite Ht, Hr. simpl.
  rewrite <- (with_target_same fs d Ht) at 1.
  destruct (cleanup_loop now maxAgeMs fs (map fst (map_to_list d)) d) as (d' & -> & Hlook).
  do 3 f_equal. apply map_eq. intros name.
  rewrite Hlook, swept_lookup.
  destruct (d !! name) as [e|] eqn:He; [|done].
  rewrite bool_decide_eq_true_2; [done|].
  apply list_elem_of_In, in_map_iff. exists (name, e). split; [done|].
  apply list_elem_of_In. by apply elem_of_map_to_list.
Qed.

(** Only [undefined] has no JSON text. *)
Lemma serialize_Some (gap indent : jstr) (v : jsval) :
  v ≠ JUndefined → ∃ text, JSON.serialize gap indent v = Some text.
Proof. destruct v; simpl; try done; eauto. Qed.

Lemma or_empty_object_defined (payload : jsval) : or_empty_object payload ≠ JUndefined.
Proof. by destruct payload. Qed.

End SweepFacts.

(** ** The runtime model on examples *)

Section Examples.

Import Num.

Example Number_decimal : Number (str " 12.50 ") = of_decimal false 125 (-1).
Proof. vm_compute. reflexivity. Qed.

Example Number_hexadecimal : Number (str "0x1F") = of_decimal false 31 0.
Proof. vm_compute. reflexivity. Qed.

Example Number_not_a_number :
  map (λ s, isNaN (Number s)) [str "abc"; str "1_0"; str "."; str "1e"; str "+-5"; str "0x"]
  = [true; true; true; true; true; true].
Proof. vm_compute. reflexivity. Qed.

Example Number_overflow : Number (str "1e999") = S754_infinity false.
Proof. vm_compute. reflexivity. Qed.

Example Math_floor_negative :
  toString (Math_floor (Number (str "-3.1"))) = str "-4".
Proof. vm_compute. reflexivity. Qed.

Example toString_examples :
  map (λ s, toString (Number s))
    [str "0.1"; str "1e21"; str "123456789012345680000"; str "5e-324";
     str "0.000001"; str "1e-7"; str "0.30000000000000004"; str "-0"]
  = [str "0.1"; str "1e+21"; str "123456789012345680000"; str "5e-324";
     str "0.000001"; str "1e-7"; str "0.30000000000000004"; str "0"].
Proof. vm_compute. reflexivity. Qed.

Example parse_object_order :
  JSON.parse (json_text "{'b': [true, null], '2': 'x', '1': -0.5, 'b': 3}")
  = Ok (JObj [(str "1", JNum (of_decimal true 5 (-1))); (str "2", JStr (str "x"));
              (str "b", JNum three)]).
Proof. vm_compute. reflexivity. Qed.

Example parse_rejects :
  map (λ s, match JSON.parse (json_text s) with Ok _ => true | Throw _ => false end)
    ["[1,]"; "{'a' 1}"; "01"; "1."; "tru"; "[1"; "'abc"; "1 2"; ""; "  "]%string
  = [false; false; false; false; false; false; false; false; false; false].
Proof. vm_compute. reflexivity. Qed.

Example nested_envelope :
  Extract.extractAnswerText
    (JObj [(str "response", JObj [(str "data", text_entry (str "x"))])])
  = Some (str "x").
Proof. vm_compute. reflexivity. Qed.

Example toolChoice_shorthand :
  parseToolChoice (Some (str "auto")) = Ok (JObj [(str "type", JStr (str "auto"))]).
Proof. vm_compute. reflexivity. Qed.

End Examples.

(** ** Answer extraction: the claims *)

Section ExtractClaims.

Import Extract.

(** C2, as stated, fails: in the content array [[{text: ''}, {text: 'b'}]]
    two text strings are found, the empty string and [b]; their join with a
    newline is a newline and [b], yet the extractor returns [b] alone: it
    drops the empty text. *)
Lemma content_join_drops_empty_text :
  found_texts content_empty_b = [[]; str "b"]
  ∧ join newline (found_texts content_empty_b) = newline ++ str "b"
  ∧ extractAnswerText (JObj [(str "content", JArr content_empty_b)]) = Some (str "b")
  ∧ extractAnswerText (JObj [(str "content", JArr content_empty_b)])
      ≠ Some (join newline (found_texts content_empty_b)).
Proof. repeat split; done. Qed.

(** C2, amended: for every object whose [content] is an array, the
    extractor takes from each entry that is an object with a string [text]
    of at least one code unit that text, skips every other entry (entries
    without a string [text] and entries whose [text] is the empty string),
    and, when at least one text was taken, returns them joined with a
    newline, whatever the object's other fields are.  So
    [{content: [{text: "a"}, {text: "b"}]}] gives ["a\nb"], also beside a
    [text] field. *)
Theorem content_parts_joined :
  (∀ (record : list (jstr * jsval)) (content : list jsval),
     get record (str "content") = JArr content →
     textParts content ≠ [] →
     extractAnswerText (JObj record) = Some (join newline (textParts content)))
  ∧ textParts [] = []
  ∧ (∀ (entry : jsval) (rest : list jsval),
       textParts (entry :: rest) =
         match entry with
         | JObj props =>
             match get props (str "text") with
             | JStr (c :: t) => (c :: t) :: textParts rest
             | _ => textParts rest
             end
         | _ => textParts rest
         end)
  ∧ extractAnswerText (JObj content_a_b) = Some (str "a" ++ newline ++ str "b")
  ∧ (∀ t : jsval,
       extractAnswerText (JObj (content_a_b ++ [(str "text", t)]))
       = Some (str "a" ++ newline ++ str "b")).
Proof.
  split; [|split; [done|split; [exact textParts_cons|split; [done|]]]].
  - intros record content Hc Hparts. rewrite extract_object.
    unfold content_branch. rewrite Hc.
    destruct (textParts content); [done|]. reflexivity.
  - intros t. rewrite extract_object. reflexivity.
Qed.

Lemma content_parts_joined_witness :
  extractAnswerText (JObj content_a_b) = Some (join newline [str "a"; str "b"]).
Proof.
  apply (proj1 content_parts_joined content_a_b
           [text_entry (str "a"); text_entry (str "b")]).
  - reflexivity.
  - discriminate.
Defined.

(** C3, as stated, fails twice.  [{content: [], text: "x"}] has a [content]
    array and yet its [text] is consulted and returned; and
    [{response: {}, data: "x"}] has a [response] field and yet its [data] is
    consulted and returned. *)
Lemma object_branches_fall_through :
  get empty_content_and_text (str "content") = JArr []
  ∧ content_branch empty_content_and_text = None
  ∧ extractAnswerText (JObj empty_content_and_text) = Some (str "x")
  ∧ get response_and_data (str "response") = JObj []
  ∧ extractAnswerText (JObj [(str "response", JObj [])]) = None
  ∧ extractAnswerText (JObj response_and_data) = Some (str "x").
Proof. repeat split; done. Qed.

(** C3, amended: the object case is a chain of [if] statements that fall
    through.  A [content] array with at least one non-empty text part
    decides alone.  When the content branch yields nothing (no [content]
    array, or one without such a part), a [text] field that is a non-blank
    string is returned.  The [response] field is consulted only when
    neither of these applies, and the [data] field when, besides, the
    [response] field is absent, falsy or yields no answer. *)
Theorem object_fall_through (record : list (jstr * jsval)) :
  (∀ joined, content_branch record = Some joined →
     extractAnswerText (JObj record) = Some joined)
  ∧ (∀ t, content_branch record = None → text_branch record = Some t →
       extractAnswerText (JObj record) = Some t)
  ∧ (∀ nested, content_branch record = None → text_branch record = None →
       nested_branch record (str "response") = Some nested →
       extractAnswerText (JObj record) = Some nested)
  ∧ (content_branch record = None → text_branch record = None →
     nested_branch record (str "response") = None →
     extractAnswerText (JObj record) = nested_branch record (str "data")).
Proof.
  rewrite extract_object. repeat split.
  - by intros joined ->.
  - by intros t -> ->.
  - by intros nested -> -> ->.
  - by intros -> -> ->.
Qed.

Lemma object_fall_through_witness :
  extractAnswerText (JObj response_and_data) = Some (str "x").
Proof.
  apply (proj2 (proj2 (proj2 (object_fall_through response_and_data))));
    reflexivity.
Defined.

(** C8: a blank string is no answer and a string that is not blank is its
    own answer; an object whose [text] is a blank string, and whose other
    branches yield nothing, has no answer; so [{text: ''}] has none. *)
Theorem blank_strings_are_not_answers :
  (∀ s : jstr, blank s = true → extractAnswerText (JStr s) = None)
  ∧ (∀ s : jstr, blank s = false → extractAnswerText (JStr s) = Some s)
  ∧ (∀ (record : list (jstr * jsval)) (t : jstr),
       get record (str "text") = JStr t → blank t = true →
       content_branch record = None →
       nested_branch record (str "response") = None →
       nested_branch record (str "data") = None →
       extractAnswerText (JObj record) = None)
  ∧ extractAnswerText (text_entry []) = None.
Proof.
  repeat split.
  - intros s Hs. by rewrite extract_string, Hs.
  - intros s Hs. by rewrite extract_string, Hs.
  - intros record t Ht Hb Hc Hr Hd. rewrite extract_object, Hc, Hr, Hd.
    unfold text_branch. rewrite Ht, length_trim_pos, Hb. reflexivity.
Qed.

Lemma blank_strings_are_not_answers_witness :
  extractAnswerText (JStr (str "  ")) = None
  ∧ extractAnswerText (JStr (str " a ")) = Some (str " a ")
  ∧ extractAnswerText (JObj [(str "text", JStr (str " ")); (str "data", JNull)]) = None.
Proof.
  split; [|split].
  - apply (proj1 blank_strings_are_not_answers). reflexivity.
  - apply (proj1 (proj2 blank_strings_are_not_answers)). reflexivity.
  - apply (proj1 (proj2 (proj2 blank_strings_are_not_answers)) _ (str " "));
      reflexivity.
Defined.

(** C9: the extractor never returns the empty string, yet it can return a
    blank one: the parts of a content array are kept by length, not by
    blankness, and [{content: [{text: " "}]}] yields [" "]. *)
Theorem extract_never_empty :
  (∀ (payload : jsval) (s : jstr),
     extractAnswerText payload = Some s → s ≠ [] ∧ (1 <= length s)%nat)
  ∧ (∀ t : jstr, t ≠ [] → textParts [text_entry t] = [t])
  ∧ extractAnswerText (JObj content_space) = Some (str " ")
  ∧ blank (str " ") = true.
Proof.
  split; [|split; [by intros [|c t]|done]].
  intros payload s H.
  assert (Hs : s ≠ []).
  { destruct payload as [| |b|x|t|items|props]; try done.
    - by destruct b.
    - by destruct x.
    - rewrite extract_string in H. destruct (blank t) eqn:Hb; [done|].
      injection H as <-. by destruct t.
    - rewrite extract_array in H. by eapply first_answer_nonempty.
    - rewrite extract_object in H.
      destruct (content_branch props) eqn:Hc; simpl in H.
      { injection H as <-. by eapply content_branch_nonempty. }
      destruct (text_branch props) eqn:Ht; simpl in H.
      { injection H as <-. by eapply text_branch_nonempty. }
      unfold nested_branch in H.
      destruct (truthy (get props (str "response"))).
      + destruct (pass _) eqn:Hp in H; simpl in H.
        { injection H as <-. by eapply pass_nonempty. }
        destruct (truthy (get props (str "data"))); [|done].
        by eapply pass_nonempty.
      + simpl in H. destruct (truthy (get props (str "data"))); [|done].
        by eapply pass_nonempty. }
  split; [exact Hs|]. destruct s; [done | simpl; lia].
Qed.

Lemma extract_never_empty_witness :
  str "a" ++ newline ++ str "b" ≠ [].
Proof.
  apply (proj1 extract_never_empty (JObj content_a_b)). reflexivity.
Defined.

End ExtractClaims.

(** ** Input normalisation: the claims *)

Section NormalisationClaims.

Lemma oror_first_nonempty (a b c : option jstr) :
  or_empty (oror (oror a b) c) = first_nonempty [a; b; c].
Proof.
  destruct a as [[|? ?]|], b as [[|? ?]|], c as [[|? ?]|]; reflexivity.
Qed.

Lemma oror_first_nonempty2 (a b : option jstr) :
  or_empty (oror a b) = first_nonempty [a; b].
Proof. destruct a as [[|? ?]|], b as [[|? ?]|]; reflexivity. Qed.

Lemma resolve_database_sources (cfg : config) :
  resolve_database cfg = trim (first_nonempty (database_sources cfg)).
Proof. unfold resolve_database. by rewrite oror_first_nonempty. Qed.

Lemma resolve_schema_sources (cfg : config) :
  resolve_schema cfg = trim (first_nonempty (schema_sources cfg)).
Proof. unfold resolve_schema. by rewrite oror_first_nonempty. Qed.

Lemma resolve_agentName_sources (cfg : config) :
  resolve_agentName cfg = trim (first_nonempty (agentName_sources cfg)).
Proof. unfold resolve_agentName. by rewrite oror_first_nonempty2. Qed.

(** An explicit input that is not blank is the first of its sources. *)
Lemma explicit_first (cfg : config) (name v : jstr) (rest : list (option jstr)) :
  inputs cfg !! name = Some v → blank v = false →
  trim (first_nonempty (Some (getInput cfg name) :: rest)) = trim v.
Proof.
  intros Hin Hv. unfold getInput. rewrite Hin. simpl default.
  apply trim_not_nil in Hv.
  destruct (trim v) as [|c t] eqn:Ht; [done|].
  simpl first_nonempty. rewrite <- Ht. apply trim_idem.
Qed.

Lemma resolveAgentCoordinates_cases (cfg : config) :
  resolveAgentCoordinates cfg =
    if blank (first_nonempty (database_sources cfg)) then Throw (Error missing_database)
    else if blank (first_nonempty (schema_sources cfg)) then Throw (Error missing_schema)
    else if blank (first_nonempty (agentName_sources cfg)) then Throw (Error missing_agentName)
    else Ok {| database := resolve_database cfg; schema := resolve_schema cfg;
               agentName := resolve_agentName cfg |}.
Proof.
  unfold resolveAgentCoordinates.
  rewrite (resolve_database_sources cfg), (resolve_schema_sources cfg),
    (resolve_agentName_sources cfg), !nonempty_trim, !negb_involutive.
  reflexivity.
Qed.

(** C6, as stated, fails where two fields are missing: with nothing set, the
    schema is empty after all fallbacks, and the error names the database
    only. *)
Lemma missing_schema_not_named :
  blank (first_nonempty (schema_sources config_nothing)) = true
  ∧ resolveAgentCoordinates config_nothing = Throw (Error missing_database)
  ∧ main_request config_nothing = Throw (Error missing_database)
  ∧ mentions (str "agent-schema") missing_database = false
  ∧ mentions (str "SCHEMA") missing_database = false.
Proof. repeat split; vm_compute; reflexivity. Qed.

(** C6, amended: each coordinate is the first of its sources that is not
    the empty string (the explicit input as [core.getInput] returns it, then
    the primary variable, then, for database and schema, the secondary
    one), trimmed; an explicit input that is not blank overrides the
    variables; and when a coordinate is empty or blank after its fallbacks,
    normalisation fails with the message that names the first such field in
    the order database, schema, agentName. *)
Theorem coordinates_resolution (cfg : config) :
  resolve_database cfg = trim (first_nonempty (database_sources cfg))
  ∧ resolve_schema cfg = trim (first_nonempty (schema_sources cfg))
  ∧ resolve_agentName cfg = trim (first_nonempty (agentName_sources cfg))
  ∧ (∀ v, inputs cfg !! str "agent-database" = Some v → blank v = false →
       resolve_database cfg = trim v)
  ∧ (∀ v, inputs cfg !! str "agent-schema" = Some v → blank v = false →
       resolve_schema cfg = trim v)
  ∧ (∀ v, inputs cfg !! str "agent-name" = Some v → blank v = false →
       resolve_agentName cfg = trim v)
  ∧ (blank (first_nonempty (database_sources cfg)) = true →
       resolveAgentCoordinates cfg = Throw (Error missing_database)
       ∧ main_request cfg = Throw (Error missing_database))
  ∧ (blank (first_nonempty (database_sources cfg)) = false →
     blank (first_nonempty (schema_sources cfg)) = true →
       resolveAgentCoordinates cfg = Throw (Error missing_schema)
       ∧ main_request cfg = Throw (Error missing_schema))
  ∧ (blank (first_nonempty (database_sources cfg)) = false →
     blank (first_nonempty (schema_sources cfg)) = false →
     blank (first_nonempty (agentName_sources cfg)) = true →
       resolveAgentCoordinates cfg = Throw (Error missing_agentName)
       ∧ main_request cfg = Throw (Error missing_agentName))
  ∧ (blank (first_nonempty (database_sources cfg)) = false →
     blank (first_nonempty (schema_sources cfg)) = false →
     blank (first_nonempty (agentName_sources cfg)) = false →
       resolveAgentCoordinates cfg =
         Ok {| database := resolve_database cfg; schema := resolve_schema cfg;
               agentName := resolve_agentName cfg |})
  ∧ mentions (str "agent-database") missing_database = true
  ∧ mentions (str "agent-schema") missing_schema = true
  ∧ mentions (str "agent-name") missing_agentName = true.
Proof.
  split; [apply resolve_database_sources|].
  split; [apply resolve_schema_sources|].
  split; [apply resolve_agentName_sources|].
  split; [intros v Hin Hv; rewrite resolve_database_sources; by apply explicit_first|].
  split; [intros v Hin Hv; rewrite resolve_schema_sources; by apply explicit_first|].
  split; [intros v Hin Hv; rewrite resolve_agentName_sources; by apply explicit_first|].
  unfold main_request. rewrite resolveAgentCoordinates_cases.
  split; [by intros ->|].
  split; [by intros -> ->|].
  split; [by intros -> -> ->|].
  split; [by intros -> -> ->|].
  repeat split; vm_compute; reflexivity.
Qed.

Lemma coordinates_resolution_witness :
  resolve_database config_override = str "DB"
  ∧ resolveAgentCoordinates config_override = Throw (Error missing_schema).
Proof.
  split.
  - apply (proj1 (proj2 (proj2 (proj2 (coordinates_resolution config_override))))
             (str " DB ")); vm_compute; reflexivity.
  - apply (proj1 (proj2 (proj2 (proj2 (proj2 (proj2 (proj2 (proj2
             (coordinates_resolution config_override))))))))); vm_compute; reflexivity.
Defined.

(** The two paths of [parseMessages]: a raw string that is blank, or
    absent, leaves the plain message; one that is not blank is parsed. *)
Lemma parseMessages_paths (rawMessages fallbackMessage : option jstr) :
  parseMessages rawMessages fallbackMessage
  = if blank (or_empty rawMessages) then fallback_message fallbackMessage
    else match parse_array (or_empty rawMessages) with
         | Ok messages => Ok messages
         | Throw err => Throw (Error (str "Invalid messages JSON: " ++ message err))
         end.
Proof.
  unfold parseMessages. destruct rawMessages as [raw|]; [|done].
  rewrite length_trim_pos. simpl or_empty.
  destruct raw as [|c raw']; [done|]. simpl nonempty.
  by destruct (blank (c :: raw')).
Qed.

(** C1, as stated, fails on the JSON path: with the coordinates given and
    [messages] set to ['[]'], normalisation succeeds with no message. *)
Lemma empty_message_array_accepted :
  ∃ req, main_request config_empty_array = Ok req ∧ messages req = [].
Proof. eexists. split; vm_compute; reflexivity. Qed.

(** C1, amended: after a successful normalisation each coordinate is a
    string that is not empty.  When the raw messages string is blank or
    absent, the plain message is not blank and the messages are the one
    user message that wraps its trimmed text, which is not empty.  When the
    raw messages string is not blank, it parses as a JSON array and the
    messages are that array, whatever it holds, be it nothing. *)
Theorem request_invariant (cfg : config) (req : request) :
  main_request cfg = Ok req →
  database (coords req) ≠ [] ∧ schema (coords req) ≠ [] ∧ agentName (coords req) ≠ []
  ∧ (blank (or_empty (raw_messages cfg)) = true →
       blank (or_empty (raw_message cfg)) = false
       ∧ trim (or_empty (raw_message cfg)) ≠ []
       ∧ messages req = single_message (trim (or_empty (raw_message cfg)))
       ∧ messages req ≠ [])
  ∧ (blank (or_empty (raw_messages cfg)) = false →
       ∃ raw, raw_messages cfg = Some raw
              ∧ JSON.parse raw = Ok (JArr (messages req))).
Proof.
  unfold main_request. rewrite resolveAgentCoordinates_cases.
  destruct (blank (first_nonempty (database_sources cfg))) eqn:Hd; [done|].
  destruct (blank (first_nonempty (schema_sources cfg))) eqn:Hs; [done|].
  destruct (blank (first_nonempty (agentName_sources cfg))) eqn:Ha; [done|].
  simpl bind.
  destruct (parseMessages (raw_messages cfg) (raw_message cfg)) as [msgs|] eqn:Hm; [|done].
  simpl bind.
  destruct (parseOptionalInteger _) as [tid|]; [|done]. simpl bind.
  destruct (parseOptionalInteger _) as [pid|]; [|done]. simpl bind.
  destruct (parseToolChoice _) as [tc|]; [|done]. simpl bind.
  intros [= <-]. simpl.
  rewrite resolve_database_sources, resolve_schema_sources, resolve_agentName_sources.
  split; [by apply trim_not_nil|]. split; [by apply trim_not_nil|].
  split; [by apply trim_not_nil|].
  rewrite parseMessages_paths in Hm. split; intros Hb; rewrite Hb in Hm.
  - unfold fallback_message in Hm. rewrite nonempty_trim in Hm.
    destruct (blank (or_empty (raw_message cfg))) eqn:Hf; [done|].
    injection Hm as <-. split; [done|]. split; [by apply trim_not_nil|]. done.
  - destruct (raw_messages cfg) as [raw|]; [|done]. exists raw. split; [done|].
    simpl in Hm. unfold parse_array in Hm.
    destruct (JSON.parse raw) as [parsed|e]; simpl in Hm; [|done].
    destruct parsed; try done. by injection Hm as <-.
Qed.

Lemma request_invariant_witness :
  ∃ req, main_request config_padded_message = Ok req
         ∧ database (coords req) ≠ [] ∧ messages req = single_message (str "hi").
Proof.
  eexists. split; [vm_compute; reflexivity|].
  split; [eapply (request_invariant config_padded_message); vm_compute; reflexivity|].
  eapply (proj1 (proj2 (proj2 (proj2
            (request_invariant config_padded_message _ eq_refl))))).
  vm_compute. reflexivity.
Defined.

(** C10: a string that parses as a JSON array is the message list as it
    is, nothing about its elements being checked. *)
Theorem parseMessages_array_unchanged (raw : jstr) (fallbackMessage : option jstr)
    (items : list jsval) :
  JSON.parse raw = Ok (JArr items) →
  parseMessages (Some raw) fallbackMessage = Ok items.
Proof.
  intros Hp. pose proof (parse_not_blank _ _ Hp) as Hb.
  unfold parseMessages. rewrite length_trim_pos, Hb.
  destruct raw as [|c raw']; [done|]. simpl.
  unfold parse_array. rewrite Hp. reflexivity.
Qed.

Lemma parseMessages_array_unchanged_witness :
  parseMessages (Some (json_text "[1, 'x', {'role': 5}]")) None
  = Ok [JNum one; JStr (str "x");
        JObj [(str "role", JNum (Num.of_decimal false 5 0))]].
Proof.
  apply (parseMessages_array_unchanged (json_text "[1, 'x', {'role': 5}]")).
  vm_compute. reflexivity.
Defined.

End NormalisationClaims.

(** ** Optional integers: the claim *)

Section IntegerClaims.

Import Num.

(** C7, as stated, fails at an infinite value: ["Infinity"] is a number, so
    no error is raised, and the floor of infinity is infinity, which is no
    integer. *)
Lemma infinity_passes_as_integer :
  isNaN (Number (trim (str "Infinity"))) = false
  ∧ parseOptionalInteger (Some (str "Infinity")) = Ok (Some (S754_infinity false))
  ∧ isInteger (S754_infinity false) = false.
Proof. repeat split; vm_compute; reflexivity. Qed.

(** C7, amended: absent or blank input gives [undefined]; otherwise the
    trimmed string is read as a number, an error is raised exactly when that
    is not-a-number, and else [Math.floor] of it is returned, which for a
    finite value is an integer, the value rounded toward negative infinity.
    So ["3.9"] gives 3 and ["abc"] fails. *)
Theorem optional_integer :
  parseOptionalInteger None = Ok None
  ∧ (∀ raw, blank raw = true → parseOptionalInteger (Some raw) = Ok None)
  ∧ (∀ raw, blank raw = false → isNaN (Number (trim raw)) = true →
       parseOptionalInteger (Some raw)
       = Throw (Error (str "Expected integer value, received: " ++ raw)))
  ∧ (∀ raw, blank raw = false → isNaN (Number (trim raw)) = false →
       parseOptionalInteger (Some raw) = Ok (Some (Math_floor (Number (trim raw)))))
  ∧ (∀ x, is_finite x = true →
       ∃ z, floorZ x = Some z ∧ int_value (Math_floor x) = Some z)
  ∧ parseOptionalInteger (Some (str "3.9")) = Ok (Some three)
  ∧ int_value three = Some 3%Z
  ∧ parseOptionalInteger (Some (str "abc"))
    = Throw (Error (str "Expected integer value, received: abc")).
Proof.
  split; [done|].
  split.
  { intros raw Hb. unfold parseOptionalInteger.
    destruct (nonempty raw); [|done]. simpl. by rewrite nonempty_trim, Hb. }
  split.
  { intros raw Hb Hn. unfold parseOptionalInteger.
    destruct raw as [|c raw']; [done|]. cbn [nonempty negb].
    by rewrite nonempty_trim, Hb, Hn. }
  split.
  { intros raw Hb Hn. unfold parseOptionalInteger.
    destruct raw as [|c raw']; [done|]. cbn [nonempty negb].
    by rewrite nonempty_trim, Hb, Hn. }
  split.
  { intros x Hx. rewrite Math_floor_spec by done.
    destruct x as [s|s| |neg m e]; try done; simpl; [eauto|].
    destruct (0 <=? e)%Z; eauto. }
  repeat split; vm_compute; reflexivity.
Qed.

Lemma optional_integer_witness :
  parseOptionalInteger (Some (str " -3.1 "))
  = Ok (Some (Math_floor (Number (str "-3.1"))))
  ∧ ∃ z, floorZ (Number (str "-3.1")) = Some z
         ∧ int_value (Math_floor (Number (str "-3.1"))) = Some z.
Proof.
  split.
  - apply (proj1 (proj2 (proj2 (proj2 optional_integer))) (str " -3.1 "));
      vm_compute; reflexivity.
  - apply (proj1 (proj2 (proj2 (proj2 (proj2 optional_integer))))).
    vm_compute. reflexivity.
Defined.

End IntegerClaims.

(** ** Result persistence: the claims *)

Section PersistClaims.

Local Open Scope Z_scope.

Lemma mkdirSync_entries (fs : filesystem) :
  mkdir_fails fs = false →
  mkdirSync fs = Ok (with_target fs (Some (dir_entries fs))).
Proof.
  intros Hm. unfold mkdirSync, dir_entries. rewrite Hm.
  destruct (target fs) as [d|] eqn:Ht; simpl; [|done].
  by rewrite with_target_same.
Qed.

Lemma removed_iff (now maxAgeMs : Z) (e : entry) :
  removed now maxAgeMs e = true ↔
    entry_kind e = RegularFile ∧ now - mtimeMs e > maxAgeMs
    ∧ stat_fails e = false ∧ unlink_fails e = false.
Proof.
  unfold removed, isFile. rewrite !andb_true_iff, !negb_true_iff, Z.gtb_gt.
  destruct (entry_kind e); intuition congruence.
Qed.

(** C4: on a persist call that gets past [mkdirSync] and can list the
    directory, the sweep before the write never throws, whatever fails on
    single entries, and the write goes into what the sweep leaves: an entry
    is deleted exactly when it is a regular file whose age exceeds 24 hours
    and neither [statSync] nor [unlinkSync] fails on it; newer files,
    directories and entries with a failure stay as they are. *)
Theorem sweep_before_write (fs : filesystem) (sweep_now : Z) :
  mkdir_fails fs = false → readdir_fails fs = false →
  let kept := swept sweep_now MAX_PERSIST_FILE_AGE_MS (dir_entries fs) in
  mkdirSync fs = Ok (with_target fs (Some (dir_entries fs)))
  ∧ cleanupPersistedFiles (with_target fs (Some (dir_entries fs))) sweep_now
      MAX_PERSIST_FILE_AGE_MS
    = Ok (with_target fs (Some kept))
  ∧ (∀ payload dir cwd now, ∃ text,
       JSON.stringify2 (or_empty_object payload) = Some text
       ∧ persistResponse payload dir cwd sweep_now now fs =
           let* fs' := writeFileSync (with_target fs (Some kept)) (file_name now) text
                         (getTime now) in
           Ok (path_join (path_resolve cwd dir) (file_name now), fs'))
  ∧ (∀ name, kept !! name =
       match dir_entries fs !! name with
       | Some e => if removed sweep_now MAX_PERSIST_FILE_AGE_MS e then None else Some e
       | None => None
       end)
  ∧ (∀ e, removed sweep_now MAX_PERSIST_FILE_AGE_MS e = true ↔
       entry_kind e = RegularFile ∧ sweep_now - mtimeMs e > 24 * 60 * 60 * 1000
       ∧ stat_fails e = false ∧ unlink_fails e = false).
Proof.
  intros Hm Hr kept.
  assert (Hsweep : cleanupPersistedFiles (with_target fs (Some (dir_entries fs))) sweep_now
                     MAX_PERSIST_FILE_AGE_MS = Ok (with_target fs (Some kept))).
  { by rewrite (cleanupPersistedFiles_swept _ (dir_entries fs)). }
  split; [by apply mkdirSync_entries|]. split; [exact Hsweep|].
  split; [|split; [apply swept_lookup | apply removed_iff]].
  intros payload dir cwd now.
  destruct (serialize_Some (str "  ") [] (or_empty_object payload)
              (or_empty_object_defined payload)) as [text Htext].
  exists text. split; [exact Htext|].
  unfold persistResponse. rewrite mkdirSync_entries by done. simpl bind.
  rewrite Hsweep. simpl bind. unfold JSON.stringify2 in Htext. unfold JSON.stringify2.
  by rewrite Htext.
Qed.

Lemma sweep_before_write_witness :
  swept example_now MAX_PERSIST_FILE_AGE_MS (dir_entries example_fs) !! str "old.json" = None
  ∧ ∃ fs', cleanupPersistedFiles example_fs example_now MAX_PERSIST_FILE_AGE_MS = Ok fs'
           ∧ dom (dir_entries fs')
             = {[ str "new.json"; str "sub"; str "gone.json"; str "locked.json" ]}.
Proof.
  destruct (sweep_before_write example_fs example_now eq_refl eq_refl)
    as (_ & Hsweep & _ & Hlook & _).
  split.
  - rewrite Hlook. vm_compute. reflexivity.
  - eexists. split; [exact Hsweep|]. vm_compute. reflexivity.
Defined.

(** *** The name of the file *)

Lemma padStart0_two (n : Z) :
  0 <= n <= 99 →
  let p := padStart0 2 (Num.String_int n) in
  length p = 2%nat ∧ Num.all_digits p = true ∧ Num.digits_value p = n.
Proof.
  intros Hn.
  assert (Hall : forallb (λ k, let p := padStart0 2 (Num.String_int (Z.of_nat k)) in
                    Nat.eqb (length p) 2 && Num.all_digits p
                    && (Num.digits_value p =? Z.of_nat k)) (seq 0 100) = true)
    by (vm_compute; reflexivity).
  rewrite forallb_forall in Hall.
  assert (Hin : In (Z.to_nat n) (seq 0 100)) by (apply in_seq; lia).
  apply Hall in Hin. rewrite Z2Nat.id in Hin by lia.
  apply andb_prop in Hin as [Hin H3]. apply andb_prop in Hin as [H1 H2].
  apply Nat.eqb_eq in H1. apply Z.eqb_eq in H3. done.
Qed.

Lemma year_four (y : Z) :
  1000 <= y <= 9999 →
  let p := Num.String_int y in
  length p = 4%nat ∧ Num.all_digits p = true ∧ Num.digits_value p = y.
Proof.
  intros Hy. cbn zeta. rewrite String_int_nat by lia.
  destruct (decimal_spec y ltac:(lia)) as (H1 & H2 & H3).
  split; [|done].
  assert (Hall : forallb (λ k, Nat.eqb (length (Num.decimal (1000 + Z.of_nat k))) 4)
                   (seq 0 (Z.to_nat 9000)) = true) by (vm_compute; reflexivity).
  rewrite forallb_forall in Hall.
  assert (Hin : In (Z.to_nat (y - 1000)) (seq 0 (Z.to_nat 9000))) by (apply in_seq; lia).
  apply Hall in Hin. rewrite Z2Nat.id in Hin by lia.
  replace (1000 + (y - 1000)) with y in Hin by lia. by apply Nat.eqb_eq.
Qed.

(** The name follows [agent-result-<YYYYMMDD>-<HHMMSS>-<epochMillis>.json]:
    eight digits that read as year, month and day, six that read as hour,
    minute and second, and the epoch time in digits. *)
Lemma file_name_pattern (now : Date) :
  valid_date now →
  ∃ ymd hms epoch,
    file_name now = str "agent-result-" ++ ymd ++ str "-" ++ hms ++ str "-" ++ epoch
                    ++ str ".json"
    ∧ length ymd = 8%nat ∧ Num.all_digits ymd = true
    ∧ Num.digits_value ymd
      = getFullYear now * 10000 + (getMonth now + 1) * 100 + getDate now
    ∧ length hms = 6%nat ∧ Num.all_digits hms = true
    ∧ Num.digits_value hms
      = getHours now * 10000 + getMinutes now * 100 + getSeconds now
    ∧ epoch ≠ [] ∧ Num.all_digits epoch = true
    ∧ Num.digits_value epoch = getTime now.
Proof.
  intros (Hy & Hmo & Hd & Hh & Hmi & Hs & Ht).
  destruct (year_four (getFullYear now) Hy) as (Ly & Dy & Vy).
  destruct (padStart0_two (getMonth now + 1) ltac:(lia)) as (Lmo & Dmo & Vmo).
  destruct (padStart0_two (getDate now) ltac:(lia)) as (Ld & Dd & Vd).
  destruct (padStart0_two (getHours now) ltac:(lia)) as (Lh & Dh & Vh).
  destruct (padStart0_two (getMinutes now) ltac:(lia)) as (Lmi & Dmi & Vmi).
  destruct (padStart0_two (getSeconds now) ltac:(lia)) as (Ls & Ds & Vs).
  destruct (decimal_spec (getTime now) Ht) as (De & Ne & Ve).
  exists (Num.String_int (getFullYear now)
          ++ padStart0 2 (Num.String_int (getMonth now + 1))
          ++ padStart0 2 (Num.String_int (getDate now))),
         (padStart0 2 (Num.String_int (getHours now))
          ++ padStart0 2 (Num.String_int (getMinutes now))
          ++ padStart0 2 (Num.String_int (getSeconds now))),
         (Num.String_int (getTime now)).
  split; [unfold file_name, datestamp; by rewrite <- !app_assoc|].
  rewrite (String_int_nat (getTime now)) by done.
  unfold Num.all_digits in *.
  rewrite !length_app, !forallb_app, !digits_value_app, !length_app.
  rewrite Ly, Lmo, Ld, Lh, Lmi, Ls, Dy, Dmo, Dd, Dh, Dmi, Ds, Vy, Vmo, Vd, Vh, Vmi, Vs.
  repeat split; try done; simpl; lia.
Qed.

(** C5: persisting [{"a": 1}] into a fresh directory (absent or empty)
    leaves exactly one file there, named
    [agent-result-<YYYYMMDD>-<HHMMSS>-<epochMillis>.json] after the local
    time and the epoch time in milliseconds; it holds the JSON text with an
    indentation of two spaces, which parses back to [{"a": 1}]; and a
    payload that is [null] or absent is written as the empty object. *)
Theorem persist_fresh_directory (dir cwd : jstr) (sweep_now : Z) (now : Date)
    (fs : filesystem) :
  valid_date now →
  dir_entries fs = ∅ →
  mkdir_fails fs = false → readdir_fails fs = false → write_fails fs = false →
  persistResponse payload_a1 dir cwd sweep_now now fs
  = Ok (path_join (path_resolve cwd dir) (file_name now),
        with_target fs (Some {[ file_name now := new_file now text_a1 ]}))
  ∧ JSON.stringify2 payload_a1 = Some text_a1
  ∧ JSON.parse text_a1 = Ok payload_a1
  ∧ (∃ ymd hms epoch,
       file_name now = str "agent-result-" ++ ymd ++ str "-" ++ hms ++ str "-" ++ epoch
                       ++ str ".json"
       ∧ length ymd = 8%nat ∧ Num.all_digits ymd = true
       ∧ Num.digits_value ymd
         = getFullYear now * 10000 + (getMonth now + 1) * 100 + getDate now
       ∧ length hms = 6%nat ∧ Num.all_digits hms = true
       ∧ Num.digits_value hms
         = getHours now * 10000 + getMinutes now * 100 + getSeconds now
       ∧ epoch ≠ [] ∧ Num.all_digits epoch = true
       ∧ Num.digits_value epoch = getTime now)
  ∧ (∀ payload, payload = JNull ∨ payload = JUndefined →
       persistResponse payload dir cwd sweep_now now fs
       = Ok (path_join (path_resolve cwd dir) (file_name now),
             with_target fs (Some {[ file_name now := new_file now (str "{}") ]}))).
Proof.
  intros Hdate Hempty Hm Hr Hw.
  assert (Hpersist : ∀ payload text,
    JSON.stringify2 (or_empty_object payload) = Some text →
    persistResponse payload dir cwd sweep_now now fs
    = Ok (path_join (path_resolve cwd dir) (file_name now),
          with_target fs (Some {[ file_name now := new_file now text ]}))).
  { intros payload text Htext. unfold persistResponse.
    rewrite mkdirSync_entries by done. simpl bind.
    rewrite (cleanupPersistedFiles_swept _ (dir_entries fs)) by done. simpl bind.
    rewrite Htext, Hempty. unfold swept. rewrite map_filter_empty.
    unfold writeFileSync. simpl. rewrite Hw, lookup_empty. simpl.
    by rewrite insert_empty. }
  split; [by apply Hpersist|].
  split; [by vm_compute|]. split; [by vm_compute|].
  split; [by apply file_name_pattern|].
  intros payload [-> | ->]; by apply Hpersist.
Qed.

Lemma persist_fresh_directory_witness :
  persistResponse payload_a1 (str "out") (str "/work") example_now example_date fresh_fs
  = Ok (path_join (path_resolve (str "/work") (str "out")) (file_name example_date),
        with_target fresh_fs
          (Some {[ file_name example_date := new_file example_date text_a1 ]}))
  ∧ path_join (path_resolve (str "/work") (str "out")) (file_name example_date)
    = str "/work/out/agent-result-20231114-221320-1700000000123.json".
Proof.
  split.
  - apply (persist_fresh_directory (str "out") (str "/work") example_now example_date
             fresh_fs); try reflexivity.
    unfold valid_date. simpl. lia.
  - vm_compute. reflexivity.
Defined.

End PersistClaims.

(** ** Further properties of the answer extraction *)

Section ExtractMore.

Import Extract.

(** Induction on a value with the hypothesis for every element of an array
    and every property value of an object. *)
Lemma jsval_nested_ind (P : jsval → Prop) :
  P JUndefined → P JNull → (∀ b, P (JBool b)) → (∀ x, P (JNum x)) → (∀ s, P (JStr s)) →
  (∀ items, Forall P items → P (JArr items)) →
  (∀ props, Forall (λ kv, P kv.2) props → P (JObj props)) →
  ∀ v, P v.
Proof.
  intros Hu Hn Hb Hx Hs Ha Ho.
  refine (fix go (v : jsval) : P v :=
            match v with
            | JUndefined => Hu
            | JNull => Hn
            | JBool b => Hb b
            | JNum x => Hx x
            | JStr s => Hs s
            | JArr items =>
                Ha items ((fix all (l : list jsval) : Forall P l :=
                             match l with
                             | [] => Forall_nil_2 _
                             | x :: r => Forall_cons_2 _ _ _ (go x) (all r)
                             end) items)
            | JObj props =>
                Ho props ((fix all (l : list (jstr * jsval)) : Forall (λ kv, P kv.2) l :=
                             match l with
                             | [] => Forall_nil_2 _
                             | kv :: r => Forall_cons_2 _ kv r (go kv.2) (all r)
                             end) props)
            end).
Qed.

Lemma nested_branch_not_nil (record : list (jstr * jsval)) (key s : jstr) :
  nested_branch record key = Some s → s ≠ [].
Proof.
  unfold nested_branch. destruct (truthy (get record key)); [|done].
  apply pass_nonempty.
Qed.

(** An answer has at least one code unit. *)
Lemma answer_not_nil (payload : jsval) (s : jstr) :
  extractAnswerText payload = Some s → s ≠ [].
Proof.
  destruct payload as [| |b|x|t|items|props]; try done.
  - by destruct b.
  - by destruct x.
  - rewrite extract_string. destruct (blank t) eqn:Hb; [done|].
    intros [= <-]. by destruct t.
  - rewrite extract_array. apply first_answer_nonempty.
  - rewrite extract_object.
    destruct (content_branch props) eqn:Hc; simpl.
    { intros [= <-]. by eapply content_branch_nonempty. }
    destruct (text_branch props) eqn:Ht; simpl.
    { intros [= <-]. by eapply text_branch_nonempty. }
    destruct (nested_branch props (str "response")) eqn:Hr; simpl.
    { intros [= <-]. by eapply nested_branch_not_nil. }
    apply nested_branch_not_nil.
Qed.

(** [if (nested)] never drops an answer. *)
Lemma pass_answer (payload : jsval) :
  pass (extractAnswerText payload) = extractAnswerText payload.
Proof.
  destruct (extractAnswerText payload) as [s|] eqn:H; [|done].
  apply answer_not_nil in H. by destruct s.
Qed.

Lemma answer_truthy (payload : jsval) (s : jstr) :
  extractAnswerText payload = Some s → truthy payload = true.
Proof.
  intros H. destruct (truthy payload) eqn:Ht; [done|].
  by rewrite extract_falsy in H.
Qed.

Lemma nested_branch_get (record : list (jstr * jsval)) (key : jstr) :
  nested_branch record key = extractAnswerText (get record key).
Proof.
  unfold nested_branch. rewrite pass_answer.
  destruct (truthy (get record key)) eqn:Ht; [done|].
  by rewrite extract_falsy.
Qed.

Lemma first_answer_cons (item : jsval) (rest : list jsval) :
  first_answer (item :: rest) =
    match extractAnswerText item with
    | Some s => Some s
    | None => first_answer rest
    end.
Proof. simpl. rewrite pass_answer. by destruct (extractAnswerText item). Qed.

Lemma first_answer_elem (items : list jsval) (s : jstr) :
  first_answer items = Some s →
  ∃ item, item ∈ items ∧ extractAnswerText item = Some s.
Proof.
  induction items as [|x rest IH]; [done|]. rewrite first_answer_cons.
  destruct (extractAnswerText x) as [t|] eqn:Hx.
  - intros [= ->]. exists x. split; [by left|done].
  - intros (item & Hin & Hs)%IH. exists item. split; [by right|done].
Qed.

(** X1: an array payload has the answer of its first element that has one:
    the extractor returns [s] for the array exactly when some element
    gives [s] and no element before it gives any answer. *)
Theorem array_first_answer (items : list jsval) (s : jstr) :
  extractAnswerText (JArr items) = Some s ↔
  ∃ (i : nat) (item : jsval),
    items !! i = Some item ∧ extractAnswerText item = Some s
    ∧ ∀ (j : nat) (before : jsval),
        (j < i)%nat → items !! j = Some before → extractAnswerText before = None.
Proof.
  rewrite extract_array. induction items as [|x rest IH].
  - split; [done|]. by intros (i & item & Hi & _).
  - rewrite first_answer_cons. destruct (extractAnswerText x) as [t|] eqn:Hx.
    + split.
      * intros [= ->]. exists 0%nat, x. repeat split; [done|]. intros j before Hj. lia.
      * intros (i & item & Hi & Hs & Hnone). destruct i as [|i].
        -- simpl in Hi. injection Hi as <-. congruence.
        -- specialize (Hnone 0%nat x ltac:(lia) eq_refl). congruence.
    + rewrite IH. split.
      * intros (i & item & Hi & Hs & Hnone). exists (S i), item.
        repeat split; [done|done|]. intros [|j] before Hj Hb.
        -- simpl in Hb. by injection Hb as <-.
        -- apply (Hnone j); [lia|done].
      * intros (i & item & Hi & Hs & Hnone). destruct i as [|i].
        -- simpl in Hi. injection Hi as <-. congruence.
        -- exists i, item. repeat split; [done|done|].
           intros j before Hj Hb. apply (Hnone (S j)); [lia|done].
Qed.

Lemma array_first_answer_witness :
  extractAnswerText (JArr [JNull; JStr (str " "); JStr (str "a"); JStr (str "b")])
  = Some (str "a").
Proof.
  apply array_first_answer. exists 2%nat, (JStr (str "a")).
  split; [reflexivity|]. split; [reflexivity|].
  intros [|[|j]] before Hj Hb; [by injection Hb as <-|by injection Hb as <-|lia].
Defined.

(** X2: envelopes are transparent: when a value has an answer, wrapping it,
    to any depth, in objects with the single field [response] or [data]
    and in one-element arrays leaves the answer as it is. *)
Theorem envelope_transparent (v w : jsval) (s : jstr) :
  envelope v w → extractAnswerText v = Some s → extractAnswerText w = Some s.
Proof.
  intros Henv Hs. induction Henv as [|w Henv IH|w Henv IH|w Henv IH].
  - done.
  - rewrite extract_object, nested_branch_get. simpl. by rewrite IH.
  - rewrite extract_object, !nested_branch_get. simpl. by rewrite IH.
  - rewrite extract_array, first_answer_cons. by rewrite IH.
Qed.

Lemma envelope_transparent_witness :
  extractAnswerText
    (JObj [(str "response", JArr [JObj [(str "data", text_entry (str "x"))]])])
  = Some (str "x").
Proof.
  apply (envelope_transparent (text_entry (str "x"))).
  - apply envelope_response, envelope_array, envelope_data, envelope_here.
  - reflexivity.
Defined.

(** X3: of an object the extractor reads the fields [content], [text],
    [response] and [data] only: two objects that agree on these four have
    the same answer, whatever else they hold and in whatever order. *)
Theorem only_four_fields (r1 r2 : list (jstr * jsval)) :
  get r1 (str "content") = get r2 (str "content") →
  get r1 (str "text") = get r2 (str "text") →
  get r1 (str "response") = get r2 (str "response") →
  get r1 (str "data") = get r2 (str "data") →
  extractAnswerText (JObj r1) = extractAnswerText (JObj r2).
Proof.
  intros Hc Ht Hr Hd. rewrite !extract_object.
  unfold content_branch, text_branch, nested_branch. by rewrite Hc, Ht, Hr, Hd.
Qed.

Lemma only_four_fields_witness :
  extractAnswerText
    (JObj [(str "id", JStr (str "7")); (str "data", JStr (str "d"));
           (str "text", JStr (str " "))])
  = extractAnswerText
      (JObj [(str "text", JStr (str " ")); (str "role", JNull);
             (str "data", JStr (str "d"))]).
Proof. apply only_four_fields; reflexivity. Defined.

Lemma get_strings_in (props : list (jstr * jsval)) (key : jstr) :
  strings_in (get props key) ⊆ strings_in (JObj props).
Proof.
  induction props as [|[k x] rest IH]; [done|].
  simpl get. destruct (jstr_eqb k key).
  - intros t Ht. simpl. apply elem_of_app. by left.
  - intros t Ht. simpl. apply elem_of_app. right. by apply IH.
Qed.

Lemma item_strings_in (items : list jsval) (item : jsval) :
  item ∈ items → strings_in item ⊆ strings_in (JArr items).
Proof.
  intros Hin t Ht. simpl. apply list_elem_of_In, in_flat_map.
  exists item. split; by apply list_elem_of_In.
Qed.

Lemma textParts_strings_in (content : list jsval) :
  Forall (λ part, part ∈ strings_in (JArr content)) (textParts content).
Proof.
  induction content as [|entry rest IH]; [constructor|].
  rewrite textParts_cons.
  assert (Hrest : Forall (λ part, part ∈ strings_in (JArr (entry :: rest))) (textParts rest)).
  { eapply Forall_impl; [exact IH|]. intros part Hp. simpl in *.
    apply elem_of_app. by right. }
  destruct entry as [| | | | |items|props]; try exact Hrest.
  destruct (get props (str "text")) as [| | | |t| |] eqn:Hg; try exact Hrest.
  destruct t as [|c t]; [exact Hrest|]. constructor; [|exact Hrest].
  simpl. apply elem_of_app. left.
  apply (get_strings_in props (str "text")). rewrite Hg. simpl. by left.
Qed.

(** X4: the extractor never makes text up: an answer is a string that
    occurs as a value in the payload, or strings that occur in it joined
    with newlines. *)
Theorem answer_from_payload (payload : jsval) (s : jstr) :
  extractAnswerText payload = Some s →
  ∃ parts : list jstr,
    parts ≠ [] ∧ s = join newline parts
    ∧ Forall (λ part, part ∈ strings_in payload) parts.
Proof.
  revert s. induction payload as [| |b|x|t|items IH|props IH] using jsval_nested_ind;
    intros s; try done.
  - by destruct b.
  - by destruct x.
  - rewrite extract_string. destruct (blank t); [done|]. intros [= <-].
    exists [t]. repeat split; [done|]. constructor; [|constructor]. simpl. by left.
  - rewrite extract_array. intros (item & Hin & Hs)%first_answer_elem.
    rewrite Forall_forall in IH.
    destruct (IH item Hin s Hs) as (parts & Hne & -> & Hall).
    exists parts. repeat split; [done|].
    eapply Forall_impl; [exact Hall|]. intros part. by apply item_strings_in.
  - rewrite extract_object.
    assert (Hnested : ∀ key, extractAnswerText (get props key) = Some s →
              ∃ parts, parts ≠ [] ∧ s = join newline parts
                       ∧ Forall (λ part, part ∈ strings_in (JObj props)) parts).
    { intros key Hk. clear -IH Hk.
      induction props as [|[k x] rest IHrest]; [done|].
      inversion IH as [|? ? Hx Hrest]; subst. simpl get in Hk.
      destruct (jstr_eqb k key).
      - destruct (Hx s Hk) as (parts & Hne & -> & Hall). exists parts.
        repeat split; [done|]. eapply Forall_impl; [exact Hall|].
        intros part Hp. simpl. apply elem_of_app. by left.
      - destruct (IHrest Hrest Hk) as (parts & Hne & -> & Hall). exists parts.
        repeat split; [done|]. eapply Forall_impl; [exact Hall|].
        intros part Hp. simpl. apply elem_of_app. by right. }
    destruct (content_branch props) as [joined|] eqn:Hc; simpl.
    { intros [= <-]. unfold content_branch in Hc.
      destruct (get props (str "content")) as [| | | | |content|] eqn:Hg; try done.
      destruct (textParts content) as [|p parts] eqn:Hparts; [done|].
      injection Hc as <-. exists (p :: parts). repeat split; [done|].
      rewrite <- Hparts. eapply Forall_impl; [apply textParts_strings_in|].
      intros part Hp. apply (get_strings_in props (str "content")). by rewrite Hg. }
    destruct (text_branch props) as [t|] eqn:Ht; simpl.
    { intros [= <-]. unfold text_branch in Ht.
      destruct (get props (str "text")) as [| | | |t'| |] eqn:Hg; try done.
      destruct (0 <? length (trim t'))%nat; [|done].
      assert (t' = t) as -> by congruence.
      exists [t]. repeat split; [done|]. constructor; [|constructor].
      apply (get_strings_in props (str "text")). rewrite Hg. simpl. by left. }
    rewrite !nested_branch_get.
    destruct (extractAnswerText (get props (str "response"))) as [r|] eqn:Hr; simpl.
    { intros [= <-]. by apply (Hnested (str "response")). }
    apply Hnested.
Qed.

Lemma answer_from_payload_witness :
  ∃ parts : list jstr,
    parts ≠ [] ∧ str "a" ++ newline ++ str "b" = join newline parts
    ∧ Forall (λ part, part ∈ strings_in (JObj (content_a_b ++ [(str "text", JStr (str "t"))])))
        parts.
Proof.
  apply (answer_from_payload (JObj (content_a_b ++ [(str "text", JStr (str "t"))]))).
  reflexivity.
Defined.

End ExtractMore.

(** ** Further properties of the input normalisation *)

Section NormalisationMore.

Import JSON.

Lemma members_object (value : jstr → parsed) (fuel : nat) (s : jstr)
    (acc : list (jstr * jsval)) (v : jsval) (r : jstr) :
  members value fuel s acc = Parsed v r → ∃ props, v = JObj props.
Proof.
  revert s acc. induction fuel as [|fuel IH]; intros s acc; simpl; [done|].
  destruct (member_name s) as [[key r0]|]; [|done].
  destruct (value r0) as [v' r'| |]; [|done|done].
  destruct (after_value 125 r') as [r''|r''|]; [apply IH| |done].
  intros [= <- _]. eauto.
Qed.

(** A text that begins with a brace parses to an object, if it parses. *)
Lemma parse_brace (t : jstr) (v : jsval) :
  parse (123%N :: t) = Ok v → ∃ props, v = JObj props.
Proof.
  unfold parse. set (fuel := length (123%N :: t)).
  destruct (value (S fuel) (123%N :: t)) as [v' rest| |] eqn:Hv; [|done|done].
  destruct (skip_ws rest); [|done]. intros [= <-].
  change (value (S fuel) (123%N :: t))
    with (match closes_at_once 125 t with
          | Some r => Parsed (JObj []) r
          | None => members (value fuel) fuel t []
          end) in Hv.
  destruct (closes_at_once 125 t).
  - injection Hv as <- _. eauto.
  - by eapply members_object.
Qed.

(** [JSON.parse] throws nothing but a [SyntaxError]. *)
Lemma parse_throws (text : jstr) (e : exn) :
  parse text = Throw e → ∃ msg, e = SyntaxError msg.
Proof.
  unfold parse. destruct (value (S (length text)) text) as [v rest|msg|].
  - destruct (skip_ws rest); [done|]. intros [= <-]. eauto.
  - intros [= <-]. eauto.
  - intros [= <-]. eauto.
Qed.

Lemma parseToolChoice_nonblank (raw : jstr) :
  blank raw = false →
  parseToolChoice (Some raw) =
    match trim raw with
    | 123%N :: _ =>
        match parse_object (trim raw) with
        | Ok parsed => Ok parsed
        | Throw err => Throw (Error (str "Invalid tool-choice JSON: " ++ message err))
        end
    | _ => Ok (JObj [(str "type", JStr (trim raw))])
    end.
Proof.
  intros Hb. unfold parseToolChoice.
  destruct raw as [|c raw']; [done|]. cbn [nonempty negb].
  by rewrite nonempty_trim, Hb.
Qed.

(** X5: a tool choice that begins, after trimming, with a brace is read as
    JSON: when it parses, the result is the parsed value, and that is an
    object; when it does not, the error is the engine's syntax error behind
    the words [Invalid tool-choice JSON: ].  The check for a JSON object
    inside never fires. *)
Theorem toolChoice_json (raw t : jstr) :
  trim raw = 123%N :: t →
  match JSON.parse (trim raw) with
  | Ok v => parseToolChoice (Some raw) = Ok v ∧ ∃ props, v = JObj props
  | Throw e =>
      parseToolChoice (Some raw)
      = Throw (Error (str "Invalid tool-choice JSON: " ++ message e))
      ∧ ∃ msg, e = SyntaxError msg
  end.
Proof.
  intros Ht.
  assert (Hb : blank raw = false) by (apply trim_not_nil; by rewrite Ht).
  rewrite parseToolChoice_nonblank by done. unfold parse_object.
  destruct (parse (trim raw)) as [v|e] eqn:Hp; rewrite Ht in *; simpl.
  - destruct (parse_brace _ _ Hp) as [props ->]. simpl. eauto.
  - split; [done|]. by eapply parse_throws.
Qed.

Lemma toolChoice_json_witness :
  parseToolChoice (Some (json_text " {'type':'auto','name':['X']} "))
  = Ok (JObj [(str "type", JStr (str "auto")); (str "name", JArr [JStr (str "X")])])
  ∧ parseToolChoice (Some (json_text "{'type':"))
    = Throw (Error (str "Invalid tool-choice JSON: Unexpected end of JSON input")).
Proof.
  split.
  - pose proof (toolChoice_json (json_text " {'type':'auto','name':['X']} ")
                  (json_text "'type':'auto','name':['X']}") eq_refl) as H.
    vm_compute in H. vm_compute. apply H.
  - pose proof (toolChoice_json (json_text "{'type':") (json_text "'type':") eq_refl) as H.
    vm_compute in H. vm_compute. apply H.
Defined.

(** X6: the tool choice is [undefined] or an object, never anything else:
    blank input gives [undefined]; a string that does not begin with a brace
    never fails and becomes the object with the one field [type], the
    trimmed string. *)
Theorem toolChoice_shape :
  (∀ raw v, parseToolChoice raw = Ok v → v = JUndefined ∨ ∃ props, v = JObj props)
  ∧ parseToolChoice None = Ok JUndefined
  ∧ (∀ raw, blank raw = true → parseToolChoice (Some raw) = Ok JUndefined)
  ∧ (∀ raw c t, trim raw = c :: t → c ≠ 123%N →
       parseToolChoice (Some raw) = Ok (JObj [(str "type", JStr (trim raw))])).
Proof.
  assert (Hblank : ∀ raw, blank raw = true → parseToolChoice (Some raw) = Ok JUndefined).
  { intros raw Hb. unfold parseToolChoice. destruct (nonempty raw); [|done].
    simpl. by rewrite nonempty_trim, Hb. }
  assert (Hshort : ∀ raw c t, trim raw = c :: t → c ≠ 123%N →
            parseToolChoice (Some raw) = Ok (JObj [(str "type", JStr (trim raw))])).
  { intros raw c t Ht Hc.
    rewrite parseToolChoice_nonblank by (apply trim_not_nil; by rewrite Ht).
    rewrite Ht. destruct c as [|p]; [done|].
    do 7 (destruct p as [p|p|]; try done). }
  split; [|by auto].
  intros [raw|] v; [|intros [= <-]; by left].
  destruct (blank raw) eqn:Hb.
  { rewrite Hblank by done. intros [= <-]. by left. }
  destruct (trim raw) as [|c t] eqn:Ht; [by apply trim_not_nil in Hb|].
  destruct (decide (c = 123%N)) as [->|Hc].
  - pose proof (parseToolChoice_nonblank raw Hb) as Hp. rewrite Ht in Hp.
    rewrite Hp. unfold parse_object.
    destruct (parse (123%N :: t)) as [parsed|e] eqn:Hparse; simpl; [|done].
    destruct (parse_brace _ _ Hparse) as [props ->]. simpl. intros [= <-]. eauto.
  - rewrite (Hshort raw c t) by done. intros [= <-]. eauto.
Qed.

Lemma toolChoice_shape_witness :
  parseToolChoice (Some (str " auto ")) = Ok (JObj [(str "type", JStr (str "auto"))]).
Proof.
  apply (proj2 (proj2 (proj2 toolChoice_shape)) (str " auto ") 97%N (str "uto"));
    [reflexivity|done].
Defined.

(** X7: a raw messages string that is not blank decides alone: the plain
    message is not looked at; the result is the parsed array, or the error
    [Invalid messages JSON: ] followed by the syntax error's message or,
    for JSON that is no array, by [messages must be a JSON array.] *)
Theorem messages_decided_by_raw (raw : jstr) (fallbackMessage : option jstr) :
  blank raw = false →
  parseMessages (Some raw) fallbackMessage = parseMessages (Some raw) None
  ∧ parseMessages (Some raw) fallbackMessage =
      match JSON.parse raw with
      | Ok (JArr items) => Ok items
      | Ok _ => Throw (Error (str "Invalid messages JSON: messages must be a JSON array."))
      | Throw e => Throw (Error (str "Invalid messages JSON: " ++ message e))
      end.
Proof.
  intros Hb.
  assert (Hraw : ∀ fb, parseMessages (Some raw) fb =
            match JSON.parse raw with
            | Ok (JArr items) => Ok items
            | Ok _ => Throw (Error (str "Invalid messages JSON: messages must be a JSON array."))
            | Throw e => Throw (Error (str "Invalid messages JSON: " ++ message e))
            end).
  { intros fb. unfold parseMessages. rewrite length_trim_pos, Hb.
    destruct raw as [|c raw']; [done|]. cbn [nonempty negb andb].
    unfold parse_array. destruct (parse (c :: raw')) as [parsed|e]; simpl; [|done].
    by destruct parsed. }
  split; [by rewrite !Hraw | apply Hraw].
Qed.

Lemma messages_decided_by_raw_witness :
  parseMessages (Some (json_text "{'role':'user'}")) (Some (str "hello"))
  = Throw (Error (str "Invalid messages JSON: messages must be a JSON array.")).
Proof.
  etrans; [apply (messages_decided_by_raw (json_text "{'role':'user'}")); reflexivity|].
  vm_compute. reflexivity.
Defined.

(** X8: without a raw messages string, or with a blank one, the plain
    message is trimmed and wrapped as one user message with one text part,
    and the answer extractor reads that text back from the message list; a
    blank plain message is an error. *)
Theorem fallback_message_read_back (rawMessages fallbackMessage : option jstr) :
  blank (or_empty rawMessages) = true →
  (blank (or_empty fallbackMessage) = false →
     parseMessages rawMessages fallbackMessage
     = Ok (single_message (trim (or_empty fallbackMessage)))
     ∧ Extract.extractAnswerText (JArr (single_message (trim (or_empty fallbackMessage))))
       = Some (trim (or_empty fallbackMessage)))
  ∧ (blank (or_empty fallbackMessage) = true →
       parseMessages rawMessages fallbackMessage
       = Throw (Error (str "Provide `message` input, AGENT_MESSAGE env, or a messages array."))).
Proof.
  intros Hraw.
  assert (Hfb : parseMessages rawMessages fallbackMessage = fallback_message fallbackMessage).
  { unfold parseMessages. destruct rawMessages as [raw|]; [|done].
    simpl in Hraw. by rewrite length_trim_pos, Hraw, andb_false_r. }
  rewrite Hfb. unfold fallback_message. rewrite nonempty_trim. split.
  - intros Hb. rewrite Hb. split; [done|].
    apply trim_not_nil in Hb.
    destruct (trim (or_empty fallbackMessage)) as [|c t] eqn:Ht; [done|].
    rewrite extract_array. reflexivity.
  - by intros ->.
Qed.

Lemma fallback_message_read_back_witness :
  parseMessages (Some (str "  ")) (Some (str " hi there ")) = Ok (single_message (str "hi there"))
  ∧ Extract.extractAnswerText (JArr (single_message (str "hi there"))) = Some (str "hi there").
Proof.
  apply (proj1 (fallback_message_read_back (Some (str "  ")) (Some (str " hi there "))
                  eq_refl)).
  reflexivity.
Defined.

(** X9: resolved coordinates carry no white space around them: each is a
    string that trimming leaves as it is. *)
Theorem coordinates_trimmed (cfg : config) (c : coordinates) :
  resolveAgentCoordinates cfg = Ok c →
  trim (database c) = database c ∧ trim (schema c) = schema c
  ∧ trim (agentName c) = agentName c.
Proof.
  rewrite resolveAgentCoordinates_cases.
  destruct (blank (first_nonempty (database_sources cfg))); [done|].
  destruct (blank (first_nonempty (schema_sources cfg))); [done|].
  destruct (blank (first_nonempty (agentName_sources cfg))); [done|].
  intros [= <-]. simpl.
  unfold resolve_database, resolve_schema, resolve_agentName.
  by rewrite !trim_idem.
Qed.

Lemma coordinates_trimmed_witness :
  trim (str "DB") = str "DB" ∧ trim (str "PUBLIC") = str "PUBLIC"
  ∧ trim (str "EMPLOYEE_AGENT") = str "EMPLOYEE_AGENT".
Proof.
  apply (coordinates_trimmed config_hi
           {| database := str "DB"; schema := str "PUBLIC";
              agentName := str "EMPLOYEE_AGENT" |}).
  vm_compute. reflexivity.
Defined.

(** X10: a primary variable that is set to white space only is taken, not
    skipped: without an explicit input the coordinate is then missing and
    the run fails, whatever the secondary variable holds. *)
Theorem blank_primary_blocks_secondary (cfg : config) (v : jstr) :
  getInput cfg (str "agent-database") = [] →
  getenv cfg (str "AGENT_DATABASE") = Some v → v ≠ [] → blank v = true →
  resolve_database cfg = []
  ∧ resolveAgentCoordinates cfg = Throw (Error missing_database)
  ∧ main_request cfg = Throw (Error missing_database).
Proof.
  intros Hin Henv Hne Hb.
  assert (Hsrc : first_nonempty (database_sources cfg) = v).
  { unfold database_sources. rewrite Hin, Henv. simpl. by destruct v. }
  assert (Hres : resolveAgentCoordinates cfg = Throw (Error missing_database)).
  { by rewrite resolveAgentCoordinates_cases, Hsrc, Hb. }
  split; [rewrite resolve_database_sources, Hsrc; by apply trim_blank|].
  split; [done|]. unfold main_request. by rewrite Hres.
Qed.

Lemma blank_primary_blocks_secondary_witness :
  resolve_database config_blank_primary = []
  ∧ resolveAgentCoordinates config_blank_primary = Throw (Error missing_database)
  ∧ main_request config_blank_primary = Throw (Error missing_database).
Proof.
  apply (blank_primary_blocks_secondary config_blank_primary (str "  "));
    [vm_compute; reflexivity | vm_compute; reflexivity | done | reflexivity].
Defined.

End NormalisationMore.

(** ** Further properties of the optional integers *)

Section IntegerMore.

Import Num.
Local Open Scope Z_scope.

Lemma digits2_pos_bounds (p : positive) :
  2 ^ (Z.pos (digits2_pos p) - 1) <= Z.pos p < 2 ^ Z.pos (digits2_pos p).
Proof.
  induction p as [p IH|p IH|]; simpl digits2_pos.
  - rewrite Pos2Z.inj_succ.
    replace (Z.succ (Z.pos (digits2_pos p)) - 1) with (Z.succ (Z.pos (digits2_pos p) - 1)) by lia.
    rewrite !Z.pow_succ_r by lia. lia.
  - rewrite Pos2Z.inj_succ.
    replace (Z.succ (Z.pos (digits2_pos p)) - 1) with (Z.succ (Z.pos (digits2_pos p) - 1)) by lia.
    rewrite !Z.pow_succ_r by lia. lia.
  - simpl. lia.
Qed.

Lemma iter_xO_spec (p k : positive) :
  Z.pos (Pos.iter xO p k) = Z.pos p * 2 ^ Z.pos k
  ∧ Z.pos (digits2_pos (Pos.iter xO p k)) = Z.pos (digits2_pos p) + Z.pos k.
Proof.
  induction k as [|k IH] using Pos.peano_ind.
  - simpl. split; lia.
  - rewrite Pos.iter_succ. destruct IH as [IH1 IH2]. simpl digits2_pos.
    rewrite !Pos2Z.inj_succ, Z.pow_succ_r by lia. split.
    + rewrite Pos2Z.inj_xO, IH1. lia.
    + rewrite IH2. lia.
Qed.

(** A mantissa of 53 bits with an exponent in range is left alone by the
    rounding. *)
Lemma binary_round_aux_canonical (neg : bool) (m : positive) (e : Z) :
  Z.pos (digits2_pos m) = 53 → -1074 <= e <= 971 →
  binary_round_aux prec emax neg (Z.pos m) e loc_Exact = S754_finite neg m e.
Proof.
  intros Hd He.
  assert (Hshift : fexp prec emax (Zdigits2 (Z.pos m) + e) - e = 0).
  { unfold fexp, emin, prec, emax, Zdigits2. lia. }
  unfold binary_round_aux, shr_fexp. rewrite Hshift.
  cbn [shr shr_record_of_loc shr_m loc_of_shr_record round_nearest_even].
  rewrite Hshift. cbn [shr shr_record_of_loc shr_m].
  unfold prec, emax. by rewrite (proj2 (Z.leb_le e (1024 - 53))) by lia.
Qed.

(** An integer below [2^53] is a binary64 value: rounding leaves it as it
    is. *)
Lemma binary_round_int (neg : bool) (p : positive) :
  Z.pos p < 2 ^ 53 →
  int_value (binary_round prec emax neg p 0) = Some (cond_Zopp neg (Z.pos p)).
Proof.
  intros Hp. pose proof (digits2_pos_bounds p) as [Hlo _].
  assert (Hd : Z.pos (digits2_pos p) <= 53).
  { destruct (Z_le_gt_dec (Z.pos (digits2_pos p)) 53) as [|Hgt]; [done|].
    assert (2 ^ 53 <= 2 ^ (Z.pos (digits2_pos p) - 1)) by (apply Z.pow_le_mono_r; lia).
    lia. }
  unfold binary_round, shl_align.
  assert (Hfexp : fexp prec emax (Z.pos (digits2_pos p) + 0) - 0
                  = Z.pos (digits2_pos p) - 53).
  { unfold fexp, emin, prec, emax. lia. }
  assert (Hfexp' : fexp prec emax (Z.pos (digits2_pos p) + 0)
                   = Z.pos (digits2_pos p) - 53) by lia.
  rewrite Hfexp, Hfexp'.
  destruct (Z.pos (digits2_pos p) - 53) as [|k|k] eqn:Hk; [|lia|].
  - rewrite binary_round_aux_canonical by lia.
    unfold int_value. simpl. by rewrite Z.mul_1_r.
  - destruct (iter_xO_spec p k) as [Hval Hdig].
    rewrite binary_round_aux_canonical by lia.
    unfold int_value.
    rewrite (proj2 (Z.leb_gt 0 (Z.neg k))) by lia.
    replace (- Z.neg k) with (Z.pos k) by lia.
    rewrite Hval, Z.mod_mul by lia. simpl. f_equal.
    destruct neg; simpl.
    + rewrite <- Z.mul_opp_l. apply Z.div_mul. lia.
    + apply Z.div_mul. lia.
Qed.

Lemma of_decimal_int (neg : bool) (n : Z) :
  0 < n < 2 ^ 53 → int_value (of_decimal neg n 0) = Some (cond_Zopp neg n).
Proof.
  intros Hn. unfold of_decimal.
  replace (n <=? 0) with false by (symmetry; apply Z.leb_gt; lia).
  simpl (0 <=? 0).
  assert (Hlog : Z.log2 n < 53) by (apply Z.log2_lt_pow2; lia).
  replace (1025 <=? Z.log2 n + 3 * 0) with false by (symmetry; apply Z.leb_gt; lia).
  rewrite Z.pow_0_r, Z.mul_1_r.
  destruct n as [|p|p]; [lia| |lia].
  destruct neg; simpl cond_Zopp; unfold binary_normalize.
  - apply (binary_round_int true). lia.
  - apply (binary_round_int false). lia.
Qed.

Lemma int_value_floorZ (x : number) (z : Z) : int_value x = Some z → floorZ x = Some z.
Proof.
  destruct x as [s|s| |neg m e]; try done. simpl.
  destruct (0 <=? e); [done|]. by destruct (_ =? 0).
Qed.

Lemma int_value_finite (x : number) (z : Z) : int_value x = Some z → is_finite x = true.
Proof. by destruct x. Qed.

Lemma span_all_digits (s : jstr) : all_digits s = true → span_digits s = (s, []).
Proof.
  induction s as [|c s IH]; [done|]. simpl.
  intros [Hc Hs]%andb_prop. by rewrite Hc, IH.
Qed.

Lemma is_digit_not_ws (c : N) : is_digit c = true → is_ws c = false.
Proof.
  unfold is_digit. intros [Ha Hb]%andb_prop. apply N.leb_le in Ha, Hb. unfold is_ws.
  rewrite (proj2 (N.leb_gt c 13)) by lia.
  rewrite (proj2 (N.leb_gt 8192 c)) by lia.
  rewrite !(proj2 (N.eqb_neq c _)) by lia.
  by rewrite andb_false_r.
Qed.

Lemma trim_all_digits (s : jstr) : all_digits s = true → trim s = s.
Proof.
  intros Hs. destruct s as [|c s]; [done|].
  assert (Hc : is_ws c = false).
  { simpl in Hs. apply andb_prop in Hs as [Hc _]. by apply is_digit_not_ws. }
  unfold trim. rewrite trimStart_fixed by done.
  unfold trimEnd.
  assert (Hrev : all_digits (rev (c :: s)) = true).
  { unfold all_digits in *. rewrite forallb_forall in *. intros x Hx.
    apply Hs. by apply in_rev. }
  destruct (rev (c :: s)) as [|d r] eqn:Hr.
  { apply (f_equal (@length N)) in Hr. rewrite length_rev in Hr. done. }
  assert (Hd : is_ws d = false).
  { simpl in Hrev. apply andb_prop in Hrev as [Hd _]. by apply is_digit_not_ws. }
  rewrite trimStart_fixed by done. rewrite <- Hr. apply rev_involutive.
Qed.

(** [Number] of a string of decimal digits is the number these digits
    write. *)
Lemma Number_digits (s : jstr) :
  s ≠ [] → all_digits s = true → Number s = of_decimal false (digits_value s) 0.
Proof.
  intros Hne Hs. unfold Number. rewrite trim_all_digits by done.
  assert (Hu : unsigned_decimal false s = of_decimal false (digits_value s) 0).
  { unfold unsigned_decimal.
    destruct s as [|c s']; [done|].
    assert (Hc : is_digit c = true) by (simpl in Hs; by apply andb_prop in Hs as [Hc _]).
    replace (jstr_eqb (c :: s') (str "Infinity")) with false.
    2:{ symmetry. apply bool_decide_eq_false. intros [= -> _]. done. }
    rewrite span_all_digits by done. simpl nonempty. simpl orb. cbv iota.
    simpl parse_exponent. cbv iota. by rewrite app_nil_r. }
  destruct s as [|c s']; [done|].
  assert (Hc : is_digit c = true) by (simpl in Hs; by apply andb_prop in Hs as [Hc _]).
  assert (Hrange : (48 <= c <= 57)%N).
  { unfold is_digit in Hc. apply andb_prop in Hc as [Ha Hb].
    apply N.leb_le in Ha, Hb. lia. }
  destruct (decide (c = 48%N)) as [->|H48].
  - destruct s' as [|d s'']; [exact Hu|].
    assert (Hd : is_digit d = true).
    { unfold all_digits in Hs. rewrite forallb_forall in Hs. apply Hs. right. by left. }
    unfold is_digit in Hd. apply andb_prop in Hd as [Ha Hb]. apply N.leb_le in Ha, Hb.
    rewrite !(proj2 (N.eqb_neq d _)) by lia. exact Hu.
  - assert (c = 49 ∨ c = 50 ∨ c = 51 ∨ c = 52 ∨ c = 53 ∨ c = 54 ∨ c = 55 ∨ c = 56 ∨ c = 57)%N
      as Hcases by lia.
    destruct Hcases as [->|[->|[->|[->|[->|[->|[->|[->| ->]]]]]]]]; exact Hu.
Qed.

(** X11: an integer id written in decimal digits comes back as that
    integer: for every [0 <= n < 2^53], the optional integer of the decimal
    form of [n] is the number [n], exactly. *)
Theorem optional_integer_round_trip (n : Z) :
  0 <= n < 2 ^ 53 →
  ∃ x, parseOptionalInteger (Some (String_int n)) = Ok (Some x) ∧ int_value x = Some n.
Proof.
  intros Hn. rewrite String_int_nat by lia.
  destruct (decimal_spec n ltac:(lia)) as (Hdig & Hne & Hval).
  exists (Math_floor (Number (decimal n))).
  assert (Hnum : int_value (Number (decimal n)) = Some n).
  { rewrite Number_digits, Hval by done.
    destruct (Z.eq_dec n 0) as [->|Hn0]; [done|].
    apply (of_decimal_int false). lia. }
  split.
  - unfold parseOptionalInteger.
    destruct (decimal n) as [|c s] eqn:Hd; [done|]. cbn [nonempty negb].
    rewrite trim_all_digits by done. cbn [nonempty negb].
    destruct (Number (c :: s)); try done.
  - rewrite Math_floor_spec by (by eapply int_value_finite).
    by apply int_value_floorZ.
Qed.

Lemma optional_integer_round_trip_witness :
  ∃ x, parseOptionalInteger (Some (str "9007199254740991")) = Ok (Some x)
       ∧ int_value x = Some 9007199254740991.
Proof.
  apply (optional_integer_round_trip 9007199254740991). vm_compute. split; discriminate || reflexivity.
Defined.

End IntegerMore.

(** ** Further properties of the persistence *)

Section PersistMore.

Local Open Scope Z_scope.

Lemma removed_later (t1 t2 maxAgeMs : Z) (e : entry) :
  t1 <= t2 → removed t1 maxAgeMs e = true → removed t2 maxAgeMs e = true.
Proof. rewrite !removed_iff. intros Ht (Hk & Hage & Hs & Hu). repeat split; [done|lia|done|done]. Qed.

Lemma swept_later (t1 t2 maxAgeMs : Z) (d : gmap jstr entry) :
  t1 <= t2 → swept t2 maxAgeMs (swept t1 maxAgeMs d) = swept t2 maxAgeMs d.
Proof.
  intros Ht. apply map_eq. intros name. rewrite !swept_lookup.
  destruct (d !! name) as [e|]; [|done].
  destruct (removed t1 maxAgeMs e) eqn:H1; [|done].
  by rewrite (removed_later t1 t2 maxAgeMs e Ht H1).
Qed.

(** X12: sweeps compose: a sweep at [t1] followed by a sweep at a later
    time [t2] leaves the directory as the one sweep at [t2] does; so a
    second sweep at the same time changes nothing. *)
Theorem sweeps_compose (fs : filesystem) (d : gmap jstr entry) (t1 t2 maxAgeMs : Z) :
  target fs = Some d → readdir_fails fs = false → t1 <= t2 →
  (let* fs1 := cleanupPersistedFiles fs t1 maxAgeMs in
   cleanupPersistedFiles fs1 t2 maxAgeMs)
  = cleanupPersistedFiles fs t2 maxAgeMs.
Proof.
  intros Hd Hr Ht.
  rewrite !(cleanupPersistedFiles_swept fs d) by done. simpl bind.
  rewrite (cleanupPersistedFiles_swept _ (swept t1 maxAgeMs d)) by done.
  by rewrite swept_later.
Qed.

Lemma sweeps_compose_witness :
  (let* fs1 := cleanupPersistedFiles example_fs (example_now - 100000000)
                 MAX_PERSIST_FILE_AGE_MS in
   cleanupPersistedFiles fs1 example_now MAX_PERSIST_FILE_AGE_MS)
  = cleanupPersistedFiles example_fs example_now MAX_PERSIST_FILE_AGE_MS.
Proof. apply (sweeps_compose example_fs example_dir); [reflexivity|reflexivity|lia]. Defined.

Lemma swept_directory (t maxAgeMs : Z) (d : gmap jstr entry) (name : jstr) :
  entry_kind <$> swept t maxAgeMs d !! name = Some Directory
  ↔ entry_kind <$> d !! name = Some Directory.
Proof.
  rewrite swept_lookup. destruct (d !! name) as [e|]; [|done].
  destruct (removed t maxAgeMs e) eqn:Hr; [|done].
  apply removed_iff in Hr as (Hk & _). simpl. rewrite Hk. split; done.
Qed.

(** The text that [persistResponse] writes for a payload. *)
Lemma stringify2_payload (payload : jsval) :
  JSON.stringify2 (or_empty_object payload)
  = Some (default [] (JSON.stringify2 (or_empty_object payload))).
Proof.
  destruct (serialize_Some (str "  ") [] (or_empty_object payload)
              (or_empty_object_defined payload)) as [text Htext].
  unfold JSON.stringify2. by rewrite Htext.
Qed.

(** [persistResponse] step by step, once the directory can be made and
    listed. *)
Lemma persistResponse_write (payload : jsval) (dir cwd : jstr) (sweep_now : Z)
    (now : Date) (fs : filesystem) :
  mkdir_fails fs = false → readdir_fails fs = false →
  persistResponse payload dir cwd sweep_now now fs =
    let kept := swept sweep_now MAX_PERSIST_FILE_AGE_MS (dir_entries fs) in
    let text := default [] (JSON.stringify2 (or_empty_object payload)) in
    if write_fails fs then Throw EACCES
    else
      match entry_kind <$> kept !! file_name now with
      | Some Directory => Throw EISDIR
      | _ => Ok (path_join (path_resolve cwd dir) (file_name now),
                 with_target fs (Some (<[file_name now := new_file now text]> kept)))
      end.
Proof.
  intros Hm Hr. unfold persistResponse.
  rewrite mkdirSync_entries by done. simpl bind.
  rewrite (cleanupPersistedFiles_swept _ (dir_entries fs)) by done. simpl bind.
  rewrite stringify2_payload. unfold writeFileSync. simpl.
  destruct (write_fails fs); [done|].
  destruct (entry_kind <$> _) as [[| |]|]; done.
Qed.

(** What a successful [persistResponse] says of the file system before and
    after. *)
Lemma persistResponse_Ok (payload : jsval) (dir cwd : jstr) (sweep_now : Z)
    (now : Date) (fs fs' : filesystem) (path : jstr) :
  persistResponse payload dir cwd sweep_now now fs = Ok (path, fs') →
  mkdir_fails fs = false ∧ readdir_fails fs = false ∧ write_fails fs = false
  ∧ entry_kind <$> dir_entries fs !! file_name now ≠ Some Directory
  ∧ path = path_join (path_resolve cwd dir) (file_name now)
  ∧ fs' = with_target fs
            (Some (<[file_name now := new_file now
                                        (default [] (JSON.stringify2 (or_empty_object payload)))]>
                     (swept sweep_now MAX_PERSIST_FILE_AGE_MS (dir_entries fs)))).
Proof.
  intros H.
  assert (Hm : mkdir_fails fs = false).
  { unfold persistResponse, mkdirSync in H. by destruct (mkdir_fails fs). }
  assert (Hr : readdir_fails fs = false).
  { unfold persistResponse in H. rewrite mkdirSync_entries in H by done. simpl bind in H.
    unfold cleanupPersistedFiles, readdirSync in H. simpl in H.
    by destruct (readdir_fails fs). }
  rewrite persistResponse_write in H by done. cbn zeta in H.
  destruct (write_fails fs); [done|].
  destruct (entry_kind <$> swept _ _ _ !! file_name now) as [k|] eqn:Hk.
  - assert (k ≠ Directory) by (intros ->; done).
    assert (Hnd : entry_kind <$> dir_entries fs !! file_name now ≠ Some Directory).
    { intros Hdir.
      apply (proj2 (swept_directory sweep_now MAX_PERSIST_FILE_AGE_MS _ _)) in Hdir.
      congruence. }
    destruct k; try done; by injection H as <- <-.
  - assert (Hnd : entry_kind <$> dir_entries fs !! file_name now ≠ Some Directory).
    { intros Hdir.
      apply (proj2 (swept_directory sweep_now MAX_PERSIST_FILE_AGE_MS _ _)) in Hdir.
      congruence. }
    by injection H as <- <-.
Qed.

(** X13: [persistResponse] succeeds exactly when the directory can be made,
    listed and written and no directory has the new file's name; it then
    returns the resolved directory joined with the file name, and leaves in
    the directory what the sweep kept, untouched, and the new file with the
    JSON text of the payload. *)
Theorem persist_outcome (payload : jsval) (dir cwd : jstr) (sweep_now : Z)
    (now : Date) (fs : filesystem) :
  let ready := mkdir_fails fs = false ∧ readdir_fails fs = false ∧ write_fails fs = false
               ∧ entry_kind <$> dir_entries fs !! file_name now ≠ Some Directory in
  (ready →
   persistResponse payload dir cwd sweep_now now fs
   = Ok (path_join (path_resolve cwd dir) (file_name now),
         with_target fs
           (Some (<[file_name now := new_file now
                                       (default [] (JSON.stringify2 (or_empty_object payload)))]>
                    (swept sweep_now MAX_PERSIST_FILE_AGE_MS (dir_entries fs))))))
  ∧ (∀ r, persistResponse payload dir cwd sweep_now now fs = Ok r → ready).
Proof.
  cbn zeta. split.
  - intros (Hm & Hr & Hw & Hd). rewrite persistResponse_write by done. cbn zeta.
    rewrite Hw.
    destruct (entry_kind <$> swept _ _ _ !! file_name now) as [[| |]|] eqn:Hk; try done.
    apply swept_directory in Hk. done.
  - intros [path fs'] H. apply persistResponse_Ok in H. tauto.
Qed.

Lemma persist_outcome_witness :
  ∃ fs', persistResponse payload_a1 (str "out") (str "/work") example_now example_date
           example_fs
         = Ok (str "/work/out/agent-result-20231114-221320-1700000000123.json", fs')
         ∧ dom (dir_entries fs')
           = {[ str "new.json"; str "sub"; str "gone.json"; str "locked.json";
                str "agent-result-20231114-221320-1700000000123.json" ]}.
Proof.
  eexists. split.
  - etrans.
    + apply (proj1 (persist_outcome payload_a1 (str "out") (str "/work") example_now
                      example_date example_fs)).
      repeat split; vm_compute; congruence.
    + vm_compute. reflexivity.
  - vm_compute. reflexivity.
Defined.

Lemma dir_entries_with_target (fs : filesystem) (d : gmap jstr entry) :
  dir_entries (with_target fs (Some d)) = d.
Proof. reflexivity. Qed.

(** X14: a persisted file outlives the next persist call: when a second
    call into the directory sweeps no later than 24 hours after the first
    file's time and writes a file of another name, both files are there
    afterwards, each with the text of its payload; when the second call
    writes the same name, the file holds the second payload. *)
Theorem persist_twice (p1 p2 : jsval) (dir cwd : jstr) (t1 t2 : Z) (now1 now2 : Date)
    (fs fs1 fs2 : filesystem) (path1 path2 : jstr) :
  persistResponse p1 dir cwd t1 now1 fs = Ok (path1, fs1) →
  persistResponse p2 dir cwd t2 now2 fs1 = Ok (path2, fs2) →
  dir_entries fs2 !! file_name now2
  = Some (new_file now2 (default [] (JSON.stringify2 (or_empty_object p2))))
  ∧ (file_name now1 ≠ file_name now2 → t2 - getTime now1 <= MAX_PERSIST_FILE_AGE_MS →
     dir_entries fs2 !! file_name now1
     = Some (new_file now1 (default [] (JSON.stringify2 (or_empty_object p1))))).
Proof.
  intros (_ & _ & _ & _ & _ & ->)%persistResponse_Ok (_ & _ & _ & _ & _ & ->)%persistResponse_Ok.
  rewrite !dir_entries_with_target. split.
  - apply lookup_insert_eq.
  - intros Hne Hage. rewrite lookup_insert_ne by done.
    rewrite swept_lookup, lookup_insert_eq.
    assert (Hkeep : removed t2 MAX_PERSIST_FILE_AGE_MS
                      (new_file now1 (default [] (JSON.stringify2 (or_empty_object p1))))
                    = false).
    { destruct (removed _ _ _) eqn:Hr; [|done].
      apply removed_iff in Hr as (_ & Hr & _). simpl in Hr. lia. }
    by rewrite Hkeep.
Qed.

Lemma persist_twice_witness :
  dir_entries fs_after_second !! file_name example_date_later
  = Some (new_file example_date_later (str "{}"))
  ∧ dir_entries fs_after_second !! file_name example_date
    = Some (new_file example_date text_a1).
Proof.
  destruct (persist_twice payload_a1 JNull (str "out") (str "/work") example_now
              (example_now + 5000) example_date example_date_later fresh_fs
              fs_after_first fs_after_second
              (str "/work/out/agent-result-20231114-221320-1700000000123.json")
              (str "/work/out/agent-result-20231114-221325-1700000005000.json"))
    as [H2 H1]; [vm_compute; reflexivity | vm_compute; reflexivity |].
  split; [exact H2|]. apply H1; vm_compute; congruence.
Defined.

(** X15: the file name tells the time: two dates in the years of four
    digits with the same file name have the same epoch time and the same
    local year, month, day, hour, minute and second; so calls at different
    milliseconds never write the same file. *)
Theorem file_name_injective (a b : Date) :
  valid_date a → valid_date b → file_name a = file_name b → a = b.
Proof.
  intros Ha Hb Heq.
  destruct (file_name_pattern a Ha)
    as (ymd & hms & ep & Hna & Ly & _ & Vy & Lh & _ & Vh & _ & _ & Ve).
  destruct (file_name_pattern b Hb)
    as (ymd' & hms' & ep' & Hnb & Ly' & _ & Vy' & Lh' & _ & Vh' & _ & _ & Ve').
  rewrite Hna, Hnb in Heq.
  apply app_inv_head in Heq.
  apply app_inj_1 in Heq as [-> Heq]; [|congruence].
  apply app_inv_head in Heq.
  apply app_inj_1 in Heq as [-> Heq]; [|congruence].
  apply app_inv_head in Heq. apply app_inv_tail in Heq as ->.
  destruct Ha as (? & ? & ? & ? & ? & ? & ?), Hb as (? & ? & ? & ? & ? & ? & ?).
  destruct a, b; simpl in *. f_equal; lia.
Qed.

Lemma file_name_injective_witness :
  example_date
  = {| getFullYear := 2000 + 23; getMonth := 10; getDate := 2 * 7; getHours := 22;
       getMinutes := 13; getSeconds := 20; getTime := example_now + 123 |}.
Proof.
  apply file_name_injective;
    [unfold valid_date, example_date, example_now; simpl; lia ..|reflexivity].
Defined.

End PersistMore.

(** ** Properties of [main] and of [parseBoolean] *)

Section MainMore.

Lemma path_join_nonempty (dir name : jstr) : nonempty (path_join dir name) = true.
Proof.
  unfold path_join. destruct dir as [|c dir']; [done|].
  destruct (decide (c = 47%N ∧ dir' = [])) as [[-> ->]|Hne]; [done|].
  assert (match c :: dir' with
          | [47%N] => 47%N :: name
          | _ => (c :: dir') ++ 47%N :: name
          end = (c :: dir') ++ 47%N :: name) as ->; [|done].
  destruct dir' as [|d dir'']; [|by destruct c as [|p]; [|do 6 (destruct p as [p|p|]; try done)]].
  destruct c as [|p]; [done|]. do 6 (destruct p as [p|p|]; try done).
  exfalso. by apply Hne.
Qed.

Lemma emitOutput_standalone (setOutput : setOutput_call) (outputs : list (jstr * jstr))
    (name : jstr) (value : option jstr) :
  emitOutput setOutput false outputs name value = Ok outputs.
Proof. reflexivity. Qed.

Lemma emitOutput_Ok (setOutput : setOutput_call) (github : bool)
    (outputs outputs' : list (jstr * jstr)) (name : jstr) (value : option jstr) :
  emitOutput setOutput github outputs name value = Ok outputs' →
  outputs' = if github then outputs ++ [(name, default [] value)] else outputs.
Proof.
  unfold emitOutput. destruct github; [|congruence].
  destruct (setOutput _ _ _); congruence.
Qed.

Lemma emitOutput_succeeds (setOutput : setOutput_call) (github : bool)
    (outputs : list (jstr * jstr)) (name : jstr) (value : option jstr) :
  (∀ outputs name value, setOutput outputs name value = None) →
  emitOutput setOutput github outputs name value
  = Ok (if github then outputs ++ [(name, default [] value)] else outputs).
Proof. intros Hok. unfold emitOutput. rewrite Hok. by destruct github. Qed.

(** Outside a GitHub environment no output call is made. *)
Lemma report_standalone (setOutput : setOutput_call) (persistResults : bool)
    (dir cwd : jstr) (sweep_now : Z) (now : Date) (fs : filesystem)
    (result : agent_result) :
  report setOutput false persistResults dir cwd sweep_now now fs result =
    if persistResults then
      match persistResponse (response result) dir cwd sweep_now now fs with
      | Ok (path, fs') => Succeeded [] fs'
      | Throw e => Failed (message e)
      end
    else Succeeded [] fs.
Proof.
  unfold report. cbn zeta.
  assert (Hemitted : ∀ persistedPath,
    (let* outputs :=
       (if persistResults && nonempty (or_empty persistedPath) then
          let* outputs :=
            emitOutput setOutput false [] (str "result-json")
              (JSON.stringify (persisted_marker (or_empty persistedPath))) in
          emitOutput setOutput false outputs (str "result-file") persistedPath
        else
          let* outputs :=
            emitOutput setOutput false [] (str "result-json")
              (JSON.stringify (or_empty_object (response result))) in
          emitOutput setOutput false outputs (str "result-file") (Some [])) in
     let* outputs :=
       emitOutput setOutput false outputs (str "events-json")
         (JSON.stringify (events result)) in
     match Extract.extractAnswerText (response result) with
     | Some answerText =>
         if nonempty answerText
         then emitOutput setOutput false outputs (str "answer-text") (Some answerText)
         else Ok outputs
     | None => Ok outputs
     end) = Ok []).
  { intros persistedPath. rewrite !emitOutput_standalone.
    destruct (persistResults && nonempty (or_empty persistedPath)); cbn [bind];
      destruct (Extract.extractAnswerText (response result)) as [a|]; try done;
      by destruct (nonempty a). }
  destruct persistResults.
  - destruct (persistResponse _ _ _ _ _ _) as [[path fs']|e]; [|done].
    by rewrite Hemitted.
  - by rewrite Hemitted.
Qed.

(** A run of the statements after the call that succeeds made every
    output call, in order. *)
Lemma report_Succeeded (setOutput : setOutput_call) (github persistResults : bool)
    (dir cwd : jstr) (sweep_now : Z) (now : Date) (fs fs' : filesystem)
    (result : agent_result) (outputs : list (jstr * jstr)) :
  report setOutput github persistResults dir cwd sweep_now now fs result
  = Succeeded outputs fs' →
  ∃ persistedPath,
    (if persistResults then
       ∃ path, persistedPath = Some path
               ∧ persistResponse (response result) dir cwd sweep_now now fs = Ok (path, fs')
     else persistedPath = None ∧ fs' = fs)
    ∧ outputs = if github then outputs_of persistedPath result else [].
Proof.
  destruct github; [|rewrite report_standalone; destruct persistResults].
  - unfold report. cbn zeta.
    set (persisted := if persistResults then _ else _).
    assert (Hpersisted : ∀ p fs1, persisted = Ok (p, fs1) →
              (if persistResults then
                 ∃ path, p = Some path
                         ∧ persistResponse (response result) dir cwd sweep_now now fs
                           = Ok (path, fs1)
               else p = None ∧ fs1 = fs)
              ∧ (persistResults && nonempty (or_empty p)
                 = match p with Some _ => true | None => false end)).
    { intros p fs1. unfold persisted. destruct persistResults.
      - destruct (persistResponse _ _ _ _ _ _) as [[path fs2]|e] eqn:Hp; [|done].
        intros [= <- <-]. split; [by exists path|].
        pose proof (persistResponse_Ok _ _ _ _ _ _ _ _ Hp) as (_ & _ & _ & _ & -> & _).
        simpl or_empty. by rewrite path_join_nonempty.
      - intros [= <- <-]. done. }
    destruct persisted as [[p fs1]|e]; [|done].
    destruct (Hpersisted p fs1 eq_refl) as [Hp ->]. clear Hpersisted.
    intros Hrun. exists p.
    assert (fs1 = fs' ∧ outputs = outputs_of p result) as [-> ->]; [|done].
    unfold outputs_of. destruct p as [path|]; cbn [or_empty] in *; cbv iota in Hrun.
    + destruct (emitOutput _ _ [] _ _) as [o1|] eqn:H1; [|by cbn [bind] in Hrun].
      apply emitOutput_Ok in H1 as ->. cbn [bind] in Hrun.
      destruct (emitOutput _ _ _ (str "result-file") _) as [o2|] eqn:H2; [|by cbn [bind] in Hrun].
      apply emitOutput_Ok in H2 as ->. cbn [bind] in Hrun.
      destruct (emitOutput _ _ _ (str "events-json") _) as [o3|] eqn:H3; [|by cbn [bind] in Hrun].
      apply emitOutput_Ok in H3 as ->. cbn [bind] in Hrun.
      destruct (Extract.extractAnswerText (response result)) as [a|] eqn:Ha.
      * apply answer_not_nil in Ha. destruct a as [|c a']; [done|]. simpl nonempty in Hrun.
        cbv iota in Hrun.
        destruct (emitOutput _ _ _ (str "answer-text") _) as [o4|] eqn:H4; [|by cbn [bind] in Hrun].
        apply emitOutput_Ok in H4 as ->. by injection Hrun as <- <-.
      * injection Hrun as <- <-. by rewrite app_nil_r.
    + destruct (emitOutput _ _ [] _ _) as [o1|] eqn:H1; [|by cbn [bind] in Hrun].
      apply emitOutput_Ok in H1 as ->. cbn [bind] in Hrun.
      destruct (emitOutput _ _ _ (str "result-file") _) as [o2|] eqn:H2; [|by cbn [bind] in Hrun].
      apply emitOutput_Ok in H2 as ->. cbn [bind] in Hrun.
      destruct (emitOutput _ _ _ (str "events-json") _) as [o3|] eqn:H3; [|by cbn [bind] in Hrun].
      apply emitOutput_Ok in H3 as ->. cbn [bind] in Hrun.
      destruct (Extract.extractAnswerText (response result)) as [a|] eqn:Ha.
      * apply answer_not_nil in Ha. destruct a as [|c a']; [done|]. simpl nonempty in Hrun.
        cbv iota in Hrun.
        destruct (emitOutput _ _ _ (str "answer-text") _) as [o4|] eqn:H4; [|by cbn [bind] in Hrun].
        apply emitOutput_Ok in H4 as ->. by injection Hrun as <- <-.
      * injection Hrun as <- <-. by rewrite app_nil_r.
  - destruct (persistResponse _ _ _ _ _ _) as [[path fs1]|e]; [|done].
    intros [= <- <-]. exists (Some path). split; [by exists path|done].
  - intros [= <- <-]. by exists None.
Qed.

(** With output calls that all succeed the GitHub flag decides the outputs
    and nothing else. *)
Lemma report_succeeds (setOutput : setOutput_call) (github persistResults : bool)
    (dir cwd : jstr) (sweep_now : Z) (now : Date) (fs : filesystem)
    (result : agent_result) :
  (∀ outputs name value, setOutput outputs name value = None) →
  report setOutput github persistResults dir cwd sweep_now now fs result =
    if persistResults then
      match persistResponse (response result) dir cwd sweep_now now fs with
      | Ok (path, fs') =>
          Succeeded (if github then outputs_of (Some path) result else []) fs'
      | Throw e => Failed (message e)
      end
    else Succeeded (if github then outputs_of None result else []) fs.
Proof.
  intros Hok. destruct github; [|apply report_standalone].
  unfold report, outputs_of. cbn zeta.
  assert (Hanswer : ∀ outputs,
    match Extract.extractAnswerText (response result) with
    | Some answerText =>
        if nonempty answerText
        then emitOutput setOutput true outputs (str "answer-text") (Some answerText)
        else Ok outputs
    | None => Ok outputs
    end = Ok (outputs ++ match Extract.extractAnswerText (response result) with
                         | Some answerText => [(str "answer-text", answerText)]
                         | None => []
                         end)).
  { intros outputs.
    destruct (Extract.extractAnswerText (response result)) as [a|] eqn:Ha.
    - apply answer_not_nil in Ha. destruct a; [done|]. cbn [nonempty]. cbv iota.
      by rewrite emitOutput_succeeds.
    - by rewrite app_nil_r. }
  destruct persistResults.
  - destruct (persistResponse _ _ _ _ _ _) as [[path fs']|e] eqn:Hp; [|done].
    pose proof (persistResponse_Ok _ _ _ _ _ _ _ _ Hp) as (_ & _ & _ & _ & -> & _).
    cbn [or_empty andb]. rewrite path_join_nonempty. cbv iota.
    do 3 (rewrite emitOutput_succeeds by done; cbn [bind]).
    by rewrite Hanswer, <- !app_assoc.
  - cbn [andb]. cbv iota.
    do 3 (rewrite emitOutput_succeeds by done; cbn [bind]).
    by rewrite Hanswer, <- !app_assoc.
Qed.

Lemma main_returned (toLowerCase : jstr → jstr) (setOutput : setOutput_call)
    (runCortexAgent : request → outcome)
    (cfg : config) (cwd : jstr) (sweep_now : Z) (now : Date) (fs fs' : filesystem)
    (outputs : list (jstr * jstr)) :
  main toLowerCase setOutput runCortexAgent cfg cwd sweep_now now fs
  = Succeeded outputs fs' →
  ∃ req result,
    main_request cfg = Ok req ∧ runCortexAgent req = Returned result
    ∧ report setOutput (isGitHubEnv cfg) (parseBoolean toLowerCase (raw_persist_results cfg))
        (persistDir cfg cwd) cwd sweep_now now fs result
      = Succeeded outputs fs'.
Proof.
  unfold main. destruct (main_request cfg) as [req|e]; [|done].
  destruct (runCortexAgent req) as [result|e|] eqn:Hr; [|done|done].
  intros H. by exists req, result.
Qed.

(** X16: outside a GitHub environment (neither [GITHUB_OUTPUT] nor
    [GITHUB_ACTIONS] set to a string that is not empty) a run that succeeds
    sets no output, and no output call is made: the run ends as it does
    whatever the output calls would do, be it throw.  And as long as the
    output calls succeed, the statements after the agent's answer do to
    the file system, and fail, outside a GitHub environment as they do
    inside one. *)
Theorem standalone_sets_no_output :
  (∀ toLowerCase setOutput runCortexAgent cfg cwd sweep_now now fs outputs fs',
     isGitHubEnv cfg = false →
     main toLowerCase setOutput runCortexAgent cfg cwd sweep_now now fs
     = Succeeded outputs fs' →
     outputs = [])
  ∧ (∀ toLowerCase setOutput setOutput' runCortexAgent cfg cwd sweep_now now fs,
       isGitHubEnv cfg = false →
       main toLowerCase setOutput runCortexAgent cfg cwd sweep_now now fs
       = main toLowerCase setOutput' runCortexAgent cfg cwd sweep_now now fs)
  ∧ (∀ setOutput persistResults dir cwd sweep_now now fs result,
       (∀ outputs name value, setOutput outputs name value = None) →
       match report setOutput false persistResults dir cwd sweep_now now fs result with
       | Succeeded outputs fs' =>
           outputs = []
           ∧ ∃ outputs', report setOutput true persistResults dir cwd sweep_now now fs result
                         = Succeeded outputs' fs'
       | Failed msg =>
           report setOutput true persistResults dir cwd sweep_now now fs result = Failed msg
       end).
Proof.
  split; [|split].
  - intros toLowerCase setOutput runCortexAgent cfg cwd sweep_now now fs outputs fs' Hg
      (req & result & _ & _ & Hrep)%main_returned.
    rewrite Hg in Hrep. by apply report_Succeeded in Hrep as (_ & _ & ->).
  - intros toLowerCase setOutput setOutput' runCortexAgent cfg cwd sweep_now now fs Hg.
    unfold main. rewrite Hg. destruct (main_request cfg) as [req|e]; [|done].
    destruct (runCortexAgent req) as [result|e|]; [|done|done].
    by rewrite !report_standalone.
  - intros setOutput persistResults dir cwd sweep_now now fs result Hok.
    rewrite !report_succeeds by done. destruct persistResults.
    + destruct (persistResponse _ _ _ _ _ _) as [[path fs1]|e]; [|done]. eauto.
    + eauto.
Qed.

Lemma standalone_sets_no_output_witness :
  (∃ fs', main (map ascii_lower) setOutput_fails hello_agent config_hi (str "/w")
            example_now example_date fresh_fs = Succeeded [] fs'
          ∧ main (map ascii_lower) setOutput_succeeds hello_agent config_hi (str "/w")
              example_now example_date fresh_fs = Succeeded [] fs')
  ∧ (∃ outputs fs',
       report setOutput_succeeds true true (str "/tmp/run") (str "/w") example_now
         example_date fresh_fs hello_result = Succeeded outputs fs'
       ∧ report setOutput_succeeds false true (str "/tmp/run") (str "/w") example_now
           example_date fresh_fs hello_result = Succeeded [] fs').
Proof.
  split.
  - destruct (main (map ascii_lower) setOutput_fails hello_agent config_hi (str "/w")
                example_now example_date fresh_fs) as [outputs fs'|msg] eqn:Hm.
    + exists fs'.
      rewrite <- (proj1 (proj2 standalone_sets_no_output) (map ascii_lower) setOutput_fails
                    setOutput_succeeds hello_agent config_hi (str "/w") example_now
                    example_date fresh_fs eq_refl), Hm.
      assert (outputs = []) as ->; [|done].
      by apply (proj1 standalone_sets_no_output (map ascii_lower) setOutput_fails
                  hello_agent config_hi (str "/w") example_now example_date fresh_fs
                  outputs fs' eq_refl Hm).
    + vm_compute in Hm. discriminate.
  - pose proof (proj2 (proj2 standalone_sets_no_output) setOutput_succeeds true
                  (str "/tmp/run") (str "/w") example_now example_date fresh_fs
                  hello_result (λ _ _ _, eq_refl)) as H.
    destruct (report setOutput_succeeds false true (str "/tmp/run") (str "/w")
                example_now example_date fresh_fs hello_result)
      as [outputs fs'|msg] eqn:Hr.
    + destruct H as [-> [outputs' H]]. by exists outputs', fs'.
    + vm_compute in Hr. discriminate.
Defined.

(** X17: inside a GitHub environment a run that succeeds sets
    [result-json], [result-file] and [events-json], in this order, and
    after them [answer-text] exactly when the extractor finds an answer in
    the response, with that answer as its value; [events-json] is the JSON
    text of the events. *)
Theorem outputs_in_order (toLowerCase : jstr → jstr) (setOutput : setOutput_call)
    (runCortexAgent : request → outcome)
    (cfg : config) (cwd : jstr) (sweep_now : Z) (now : Date) (fs fs' : filesystem)
    (outputs : list (jstr * jstr)) :
  isGitHubEnv cfg = true →
  main toLowerCase setOutput runCortexAgent cfg cwd sweep_now now fs
  = Succeeded outputs fs' →
  ∃ req result result_json result_file,
    main_request cfg = Ok req ∧ runCortexAgent req = Returned result
    ∧ outputs =
        [(str "result-json", result_json); (str "result-file", result_file);
         (str "events-json", default [] (JSON.stringify (events result)))]
        ++ match Extract.extractAnswerText (response result) with
           | Some answerText => [(str "answer-text", answerText)]
           | None => []
           end.
Proof.
  intros Hg (req & result & Hreq & Hrun & Hrep)%main_returned.
  exists req, result. rewrite Hg in Hrep.
  apply report_Succeeded in Hrep as (p & _ & ->). by eexists _, _.
Qed.

Lemma outputs_in_order_witness :
  ∃ outputs fs',
    main (map ascii_lower) setOutput_succeeds hello_agent config_github (str "/w")
      example_now example_date fresh_fs = Succeeded outputs fs'
    ∧ map fst outputs
      = [str "result-json"; str "result-file"; str "events-json"; str "answer-text"].
Proof.
  destruct (main (map ascii_lower) setOutput_succeeds hello_agent config_github (str "/w")
              example_now example_date fresh_fs) as [outputs fs'|msg] eqn:Hm.
  - exists outputs, fs'. split; [done|].
    destruct (outputs_in_order (map ascii_lower) setOutput_succeeds hello_agent
                config_github (str "/w") example_now example_date fresh_fs fs' outputs
                eq_refl Hm)
      as (req & result & rj & rf & _ & Hrun & ->).
    injection Hrun as <-. reflexivity.
  - vm_compute in Hm. discriminate.
Defined.

(** X18: the outputs tell where the response is.  Without persistence
    [result-json] is the JSON text of the response (of the empty object for
    a response that is [null] or absent), [result-file] is the empty string
    and the file system is left alone.  With persistence [result-file] is
    the path of the file written, which is in the directory afterwards and
    holds the response as JSON text, and [result-json] is the text of
    [{persisted: true, path}] with that path, not the response. *)
Theorem outputs_locate_response (toLowerCase : jstr → jstr) (setOutput : setOutput_call)
    (runCortexAgent : request → outcome) (cfg : config) (cwd : jstr) (sweep_now : Z)
    (now : Date) (fs fs' : filesystem) (outputs : list (jstr * jstr)) :
  isGitHubEnv cfg = true →
  main toLowerCase setOutput runCortexAgent cfg cwd sweep_now now fs
  = Succeeded outputs fs' →
  ∃ req result rest,
    main_request cfg = Ok req ∧ runCortexAgent req = Returned result
    ∧ if parseBoolean toLowerCase (raw_persist_results cfg) then
        let path := path_join (path_resolve cwd (persistDir cfg cwd)) (file_name now) in
        outputs = (str "result-json", default [] (JSON.stringify (persisted_marker path)))
                  :: (str "result-file", path) :: rest
        ∧ dir_entries fs' !! file_name now
          = Some (new_file now
                    (default [] (JSON.stringify2 (or_empty_object (response result)))))
      else
        outputs = (str "result-json",
                   default [] (JSON.stringify (or_empty_object (response result))))
                  :: (str "result-file", []) :: rest
        ∧ fs' = fs.
Proof.
  intros Hg (req & result & Hreq & Hrun & Hrep)%main_returned.
  exists req, result. rewrite Hg in Hrep.
  apply report_Succeeded in Hrep as (p & Hp & ->).
  destruct (parseBoolean _ _).
  - destruct Hp as (path & -> & Hp).
    apply persistResponse_Ok in Hp as (_ & _ & _ & _ & -> & ->).
    eexists. split; [done|]. split; [done|].
    cbn zeta. split; [reflexivity|].
    rewrite dir_entries_with_target. apply lookup_insert_eq.
  - destruct Hp as [-> ->]. eexists. split; [done|]. split; [done|].
    split; reflexivity.
Qed.

Lemma outputs_locate_response_witness :
  ∃ outputs fs',
    main (map ascii_lower) setOutput_succeeds hello_agent config_github_persist (str "/w")
      example_now example_date fresh_fs = Succeeded outputs fs'
    ∧ outputs !! 1%nat
      = Some (str "result-file",
              str "/tmp/run/agent-result-20231114-221320-1700000000123.json")
    ∧ is_Some (dir_entries fs' !! file_name example_date).
Proof.
  destruct (main (map ascii_lower) setOutput_succeeds hello_agent config_github_persist
              (str "/w") example_now example_date fresh_fs) as [outputs fs'|msg] eqn:Hm.
  - exists outputs, fs'. split; [done|].
    destruct (outputs_locate_response (map ascii_lower) setOutput_succeeds hello_agent
                config_github_persist (str "/w") example_now example_date fresh_fs fs'
                outputs eq_refl Hm)
      as (req & result & rest & _ & _ & H).
    change (parseBoolean (map ascii_lower) (raw_persist_results config_github_persist))
      with true in H.
    cbn zeta in H. destruct H as [-> H]. split; [vm_compute; reflexivity|]. eauto.
  - vm_compute in Hm. discriminate.
Defined.

Lemma is_ascii_trim (s : jstr) : is_ascii s = true → is_ascii (trim s) = true.
Proof.
  intros Hs. unfold is_ascii in *. rewrite forallb_forall in *. intros c Hc. apply Hs.
  unfold trim, trimEnd in Hc. apply in_rev in Hc.
  destruct (trimStart_split (rev (trimStart s))) as (pre & Hsplit & _).
  assert (In c (rev (trimStart s))) by (rewrite Hsplit; apply in_or_app; by right).
  apply in_rev in H. destruct (trimStart_split s) as (pre' & Hsplit' & _).
  rewrite Hsplit'. apply in_or_app. by right.
Qed.

(** X19: [parseBoolean] never throws and is [false] for an absent or empty
    value; and, [toLowerCase] turning the ASCII capitals of an ASCII string
    into small letters, an ASCII value is [true] exactly when, trimmed and
    with its capitals made small, it is [true], [1] or [yes]. *)
Theorem parseBoolean_ascii (toLowerCase : jstr → jstr) :
  (∀ s, is_ascii s = true → toLowerCase s = map ascii_lower s) →
  parseBoolean toLowerCase None = false
  ∧ parseBoolean toLowerCase (Some []) = false
  ∧ ∀ raw, is_ascii raw = true →
      (parseBoolean toLowerCase (Some raw) = true ↔
       map ascii_lower (trim raw) = str "true" ∨ map ascii_lower (trim raw) = str "1"
       ∨ map ascii_lower (trim raw) = str "yes").
Proof.
  intros Hlower. split; [done|]. split; [done|].
  intros raw Hraw. unfold parseBoolean.
  destruct raw as [|c raw'].
  { simpl. split; [done|]. intros [H|[H|H]]; discriminate. }
  cbn [nonempty negb]. rewrite Hlower by (by apply is_ascii_trim).
  unfold jstr_eqb. rewrite !orb_true_iff, !bool_decide_eq_true. tauto.
Qed.

Lemma parseBoolean_ascii_witness :
  parseBoolean (map ascii_lower) (Some (str " YES ")) = true.
Proof.
  apply (proj2 (proj2 (parseBoolean_ascii (map ascii_lower) (λ s _, eq_refl)))
           (str " YES ") eq_refl).
  right. right. reflexivity.
Defined.

End MainMore.
